(** * dissect.archive: the WIM reader ([dissect/archive/wim.py])

    A shallow embedding of the WIM parser and of its chunked random-access
    reader, with the properties of its specification stated over it.

    Conventions of the embedding:
    - Python [int] is [Z]; [//] and [divmod] by a positive number are
      [Z.div] and [Z.modulo] (both floor).
    - Python [bytes] is [list byte]; [str] is [string].
    - A raised exception is the [Raise] case of [result]; only the class of
      the exception is kept, the message is dropped.
    - A file object is its content and its cursor; [seek], [tell] and [read]
      pass the cursor explicitly.
    - The structures of [dissect.archive.c_wim] are records holding the
      fields the reader uses, already decoded. *)

From Stdlib Require Import ZArith List Lia Bool String Ascii.
From Stdlib Require Import Strings.Byte.
Import ListNotations.
Local Open Scope Z_scope.

(* ================================================================== *)
(** ** Python values the reader works with *)

Module Py.

Definition bytes := list byte.

(** The exception classes raised by [wim.py], by [struct] and by the
    interpreter on the paths modelled here. *)
Inductive exn : Set :=
| InvalidHeaderError
| FileNotFoundError
| NotADirectoryError
| NotAReparsePointError
| NotImplementedError
| AttributeError
| IndexError
| StructError
| EOFError
| UnicodeDecodeError
| OSError.

Inductive result (A : Type) : Type :=
| Ok (a : A)
| Raise (e : exn).
Arguments Ok {A} a.
Arguments Raise {A} e.

Definition bind {A B} (r : result A) (k : A -> result B) : result B :=
  match r with
  | Ok a => k a
  | Raise e => Raise e
  end.

(** [len(x)] as a Python integer. *)
Definition len {A} (l : list A) : Z := Z.of_nat (List.length l).

Fixpoint bytes_eqb (a b : bytes) : bool :=
  match a, b with
  | [], [] => true
  | x :: a', y :: b' => Byte.eqb x y && bytes_eqb a' b'
  | _, _ => false
  end.

(** A slice bound as [PySlice_AdjustIndices] clamps it: a negative bound
    counts from the end, and both ends are clamped to [0, n]. *)
Definition slice_bound (n i : Z) : Z :=
  if i <? 0 then Z.max 0 (n + i) else Z.min i n.

(** [l[i:j]]. *)
Definition slice {A} (l : list A) (i j : Z) : list A :=
  let lo := slice_bound (len l) i in
  let hi := slice_bound (len l) j in
  firstn (Z.to_nat (hi - lo)) (skipn (Z.to_nat lo) l).

(** [t[i]] on a tuple: a negative index counts from the end, an index out
    of range raises [IndexError]. *)
Definition getitem {A} (l : list A) (i : Z) : result A :=
  let j := if i <? 0 then len l + i else i in
  if j <? 0 then Raise IndexError
  else match nth_error l (Z.to_nat j) with
       | Some x => Ok x
       | None => Raise IndexError
       end.

(** [int.from_bytes(b, "little")]. *)
Fixpoint int_from_bytes_little (b : bytes) : Z :=
  match b with
  | [] => 0
  | x :: r => Z.of_N (Byte.to_N x) + 256 * int_from_bytes_little r
  end.

(** [struct.unpack("<" + str(count) + code, buf)] for an unsigned code of
    [width] bytes: [count] little-endian integers.  [unpack_items] cuts the
    buffer; the caller has checked its size. *)
Fixpoint unpack_items (width : nat) (count : nat) (buf : bytes) : list Z :=
  match count with
  | O => []
  | S c => int_from_bytes_little (firstn width buf)
           :: unpack_items width c (skipn width buf)
  end.

(** [struct.calcsize]: a repeat count printed with a minus sign is not a
    format, [struct.error]. *)
Definition struct_calcsize (count width : Z) : result Z :=
  if count <? 0 then Raise StructError else Ok (count * width).

(** [struct.unpack]: the buffer must have exactly the size of the format. *)
Definition struct_unpack (count width : Z) (buf : bytes) : result (list Z) :=
  bind (struct_calcsize count width) (fun sz =>
  if len buf =? sz
  then Ok (unpack_items (Z.to_nat width) (Z.to_nat count) buf)
  else Raise StructError).

(** *** File objects

    The content is fixed (the reader never writes); the cursor moves.
    [seek] is the seek to a position that is not negative, and [read(n)]
    returns what is left when fewer than [n] bytes remain.  Python raises
    [ValueError] or [OSError] on a seek to a negative position; for a
    negative [n], [io.BytesIO] returns everything up to the end, as
    [read] does here, and other file objects raise [ValueError] when [n]
    is below -1.  So what is proved of a call that returns is proved
    under hypotheses that keep the positions and the sizes it reaches
    from being negative, or of results only. *)
Record BinaryIO : Type := mkIO { data : bytes; pos : Z }.

Definition seek (fh : BinaryIO) (p : Z) : BinaryIO :=
  mkIO (data fh) p.

Definition tell (fh : BinaryIO) : Z := pos fh.

Definition read (fh : BinaryIO) (n : Z) : bytes * BinaryIO :=
  let rest := skipn (Z.to_nat (pos fh)) (data fh) in
  let buf := if n <? 0 then rest else firstn (Z.to_nat n) rest in
  (buf, mkIO (data fh) (pos fh + len buf)).

(** *** Dictionaries

    A [dict] keeps its keys in insertion order; assigning to a key that is
    present replaces the value where the key stands. *)
Definition dict (K V : Type) : Type := list (K * V).

Fixpoint dict_get {K V} (eqb : K -> K -> bool) (d : dict K V) (k : K) : option V :=
  match d with
  | [] => None
  | (k', v) :: r => if eqb k' k then Some v else dict_get eqb r k
  end.

Fixpoint dict_set {K V} (eqb : K -> K -> bool) (d : dict K V) (k : K) (v : V)
  : dict K V :=
  match d with
  | [] => [(k, v)]
  | (k', v') :: r =>
      if eqb k' k then (k', v) :: r else (k', v') :: dict_set eqb r k v
  end.

Definition dict_values {K V} (d : dict K V) : list V := map snd d.

(** [a == b] where each side is [None] or a [bytes] object. *)
Definition opt_bytes_eqb (a b : option bytes) : bool :=
  match a, b with
  | None, None => true
  | Some x, Some y => bytes_eqb x y
  | _, _ => false
  end.

(** *** Strings *)

(** [s.replace(old, new)] for one-character [old] and [new]. *)
Fixpoint str_replace (old new : ascii) (s : string) : string :=
  match s with
  | EmptyString => EmptyString
  | String c s' =>
      String (if Ascii.eqb c old then new else c) (str_replace old new s')
  end.

(** [s.split(sep)] for a one-character [sep]: every occurrence cuts, so
    the parts can be empty and there is always at least one. *)
Fixpoint str_split (sep : ascii) (s : string) : list string :=
  match s with
  | EmptyString => [EmptyString]
  | String c s' =>
      if Ascii.eqb c sep then EmptyString :: str_split sep s'
      else match str_split sep s' with
           | part :: parts => String c part :: parts
           | [] => [String c EmptyString]
           end
  end.

End Py.

Import Py.

(* ================================================================== *)
(** ** [dissect.archive.c_wim] *)

Module c_wim.

(** Modelled from the spec: [WIM_IMAGE_TAG] of [c_wim.py], which is not
    among the sources; the eight bytes [MSWIM] and three zero bytes. *)
Definition WIM_IMAGE_TAG : bytes := [x4d; x53; x57; x49; x4d; x00; x00; x00].

(** Modelled from the spec: [c_wim.VERSION_DEFAULT], the only version the
    reader takes. *)
Definition VERSION_DEFAULT : Z := 0x00010d00.

Module HEADER_FLAG.
(** Modelled from the spec: the header flag of a compressed archive. *)
Definition COMPRESSION : Z := 0x02.
(** Modelled from the spec: the header flag of a multi-part archive. *)
Definition SPANNED : Z := 0x08.
End HEADER_FLAG.

Module RESHDR_FLAG.
(** Modelled from the spec: resource flag, free entry. *)
Definition FREE : Z := 0x01.
(** Modelled from the spec: resource flag, image metadata. *)
Definition METADATA : Z := 0x02.
(** Modelled from the spec: resource flag, chunk-compressed content. *)
Definition COMPRESSED : Z := 0x04.
(** Modelled from the spec: resource flag, content spanning parts. *)
Definition SPANNED : Z := 0x08.
End RESHDR_FLAG.

Module FILE_ATTRIBUTE.
(** Modelled from the spec: the directory bit of the file attributes. *)
Definition DIRECTORY : Z := 0x10.
(** Modelled from the spec: the reparse-point bit of the file attributes. *)
Definition REPARSE_POINT : Z := 0x400.
End FILE_ATTRIBUTE.

Module IO_REPARSE_TAG.
(** Modelled from the spec: the reparse tag of a mount point. *)
Definition MOUNT_POINT : Z := 0xA0000003.
(** Modelled from the spec: the reparse tag of a symbolic link. *)
Definition SYMLINK : Z := 0xA000000C.
End IO_REPARSE_TAG.

Module SYMLINK_FLAG.
(** Modelled from the spec: the flags value of an absolute link. *)
Definition ABSOLUTE : Z := 0.
(** Modelled from the spec: the flags value of a relative link. *)
Definition RELATIVE : Z := 1.
End SYMLINK_FLAG.

(** The structures, as the values [cstruct] hands to the reader: one field
    per member the reader touches.  Integer members are unsigned. *)
Module RESHDR_DISK_SHORT.
Record t : Set := mk {
  Size : bytes;            (* 7 bytes, little-endian *)
  Flags : Z;
  Offset : Z;
  OriginalSize : Z
}.
End RESHDR_DISK_SHORT.

Module RESHDR_DISK.
Record t : Set := mk {
  Base : RESHDR_DISK_SHORT.t;
  PartNumber : Z;
  RefCount : Z;
  Hash : bytes
}.
End RESHDR_DISK.

Module WIMHEADER_V1_PACKED.
Record t : Set := mk {
  ImageTag : bytes;
  Version : Z;
  Flags : Z;
  CompressionSize : Z;
  OffsetTable : RESHDR_DISK_SHORT.t
}.
End WIMHEADER_V1_PACKED.

Module SECURITYBLOCK_DISK.
Record t : Set := mk {
  TotalLength : Z;
  NumEntries : Z;
  EntryLength : list Z
}.
End SECURITYBLOCK_DISK.

Module DIRENTRY.
Record t : Set := mk {
  Length : Z;
  Attributes : Z;
  SubdirOffset : Z;
  CreationTime : Z;
  LastAccessTime : Z;
  LastWriteTime : Z;
  Hash : bytes;
  ReparseTag : Z;
  Streams : Z;
  ShortNameLength : Z;
  FileNameLength : Z
}.
End DIRENTRY.

(** [_MOUNT_POINT_REPARSE_BUFFER] and [_SYMBOLIC_LINK_REPARSE_BUFFER]; only
    the second has [Flags].  [__bool__] is the truth value of the
    structure object, which [if not self.info] tests: [dissect.cstruct]
    decides it (its version 4 gives [False] to a structure whose fields
    are all 0), so it comes with the structure that was read. *)
Module REPARSE_BUFFER.
Record t : Set := mk {
  SubstituteNameOffset : Z;
  SubstituteNameLength : Z;
  PrintNameOffset : Z;
  PrintNameLength : Z;
  Flags : option Z;
  __bool__ : bool
}.
End REPARSE_BUFFER.

Module STREAMENTRY.
Record t : Set := mk {
  Length : Z;
  Hash : bytes;
  StreamNameLength : Z
}.
End STREAMENTRY.

(** A structure of fixed size, as [cstruct] holds it: [len(c_wim._X)] is
    [sizeof], and [c_wim._X(fh)] reads [sizeof] bytes at the cursor and
    decodes them, raising [EOFError] when the stream ends before. *)
Record structure (T : Type) : Type := mkStructure {
  sizeof : Z;
  decode : bytes -> T
}.
Arguments mkStructure {T} sizeof decode.
Arguments sizeof {T} s.
Arguments decode {T} s buf.

End c_wim.

(** [DECOMPRESSOR_MAP]: from the compression bits of the header flags to a
    decompressor.  The table is in [c_wim.py]; the reader receives it. *)
Definition decompressor_map : Type := Z -> option (bytes -> bytes).

(* ================================================================== *)
(** ** [CompressedStream] *)

Definition DEFAULT_CHUNK_SIZE : Z := 32 * 1024.

Module CompressedStream.

Record t : Type := mk {
  fh : BinaryIO;
  offset : Z;
  compressed_size : Z;
  original_size : Z;
  decompressor : bytes -> bytes;
  _chunks : list Z
}.

(** [CompressedStream.__init__].  [fh] is the file object of the archive,
    shared with the stream: the [fh] of the result carries the cursor as
    the constructor leaves it. *)
Definition __init__ (fh : BinaryIO) (offset compressed_size original_size : Z)
    (decompressor : bytes -> bytes) : result t :=
  (* Read the chunk table in advance *)
  let fh := seek fh offset in
  let num_chunks := (original_size + (32 * 1024) - 1) / (32 * 1024) - 1 in
  if num_chunks =? 0 then
    Ok (mk fh offset compressed_size original_size decompressor [0])
  else
    let entry_size := if original_size >? 0xFFFFFFFF then 8 else 4 in
    bind (struct_calcsize num_chunks entry_size) (fun sz =>
    let '(buf, fh') := read fh sz in
    bind (struct_unpack num_chunks entry_size buf) (fun chunks =>
    Ok (mk fh' offset compressed_size original_size decompressor chunks))).

(** [CompressedStream._read_chunk] (behind its [lru_cache], which does not
    change what a call returns). *)
Definition _read_chunk (self : t) (offset size : Z) : bytes :=
  let fh := seek (fh self) (CompressedStream.offset self + offset) in
  let '(buf, _) := read fh size in
  decompressor self buf.

(** One turn of the [while] loop of [_read] asks [_read_chunk] for
    [(chunk_offset, size)] and keeps [buf[lo:hi]]. *)
Record request : Set := mkRequest {
  chunk_offset : Z;
  size : Z;
  lo : Z;
  hi : Z
}.

(** The [while length:] loop of [_read].  [chunk] grows by one at each turn
    and the loop leaves when it reaches [num_chunks], so
    [num_chunks - chunk] turns are all the loop can make: with that fuel the
    [O] case is reached only where the loop has left.  [offset_in_chunk] is
    the one computed before the loop: the loop does not assign it. *)
Fixpoint _read_loop (self : t) (fuel : nat) (chunk offset_in_chunk length : Z)
  : result (list request) :=
  match fuel with
  | O => Ok []
  | S fuel' =>
    if length =? 0 then Ok []
    else
      let num_chunks := len (_chunks self) in
      if chunk >=? num_chunks then
        (* We somehow requested more data than we have runs for *)
        Ok []
      else
        bind (getitem (_chunks self) chunk) (fun chunk_offset =>
        bind (if chunk <? num_chunks - 1
              then bind (getitem (_chunks self) (chunk + 1)) (fun next =>
                   Ok (next, DEFAULT_CHUNK_SIZE - offset_in_chunk))
              else Ok (compressed_size self,
                       (original_size self - (chunk * DEFAULT_CHUNK_SIZE))
                       - offset_in_chunk))
             (fun '(next_chunk_offset, chunk_remaining) =>
        let read_length := Z.min chunk_remaining length in
        let req := mkRequest chunk_offset (next_chunk_offset - chunk_offset)
                             offset_in_chunk (offset_in_chunk + read_length) in
        bind (_read_loop self fuel' (chunk + 1) offset_in_chunk
                         (length - read_length)) (fun rest =>
        Ok (req :: rest))))
  end.

(** The requests [_read(offset, length)] makes, in order. *)
Definition _read_requests (self : t) (offset length : Z) : result (list request) :=
  let num_chunks := len (_chunks self) in
  let chunk := offset / DEFAULT_CHUNK_SIZE in
  let offset_in_chunk := offset mod DEFAULT_CHUNK_SIZE in
  _read_loop self (Z.to_nat (num_chunks - chunk)) chunk offset_in_chunk length.

(** [result.append(buf[offset_in_chunk : offset_in_chunk + read_length])]. *)
Definition piece (self : t) (r : request) : bytes :=
  slice (_read_chunk self (chunk_offset r) (size r)) (lo r) (hi r).

(** [CompressedStream._read]: the pieces joined. *)
Definition _read (self : t) (offset length : Z) : result bytes :=
  bind (_read_requests self offset length) (fun reqs =>
  Ok (List.concat (map (piece self) reqs))).


End CompressedStream.

(* ================================================================== *)
(** ** [Resource] *)

(** [WIM] as a resource reaches it through [self.wim]: the two attributes
    [WIM.__init__] has set when it builds its resources. *)
Record wim_handle : Type := mkHandle {
  handle_fh : BinaryIO;
  handle_header : c_wim.WIMHEADER_V1_PACKED.t
}.

(** What [Resource.open] returns: a [RelativeStream] of [dissect.util], as
    the arguments it is built from, or a [CompressedStream]. *)
Inductive stream : Type :=
| RelativeStream (fh : BinaryIO) (offset size : Z)
| Compressed (s : CompressedStream.t).

Module Resource.

Record t : Type := mk {
  wim : wim_handle;
  size : Z;
  flags : Z;
  offset : Z;
  original_size : Z;
  part_number : option Z;
  reference_count : option Z;
  hash : option bytes
}.

Definition from_short_header (wim : wim_handle)
    (reshdr : c_wim.RESHDR_DISK_SHORT.t) : t :=
  mk wim
     (int_from_bytes_little (c_wim.RESHDR_DISK_SHORT.Size reshdr))
     (c_wim.RESHDR_DISK_SHORT.Flags reshdr)
     (c_wim.RESHDR_DISK_SHORT.Offset reshdr)
     (c_wim.RESHDR_DISK_SHORT.OriginalSize reshdr)
     None None None.

Definition from_header (wim : wim_handle) (reshdr : c_wim.RESHDR_DISK.t) : t :=
  let obj := from_short_header wim (c_wim.RESHDR_DISK.Base reshdr) in
  mk (Resource.wim obj) (size obj) (flags obj) (offset obj) (original_size obj)
     (Some (c_wim.RESHDR_DISK.PartNumber reshdr))
     (Some (c_wim.RESHDR_DISK.RefCount reshdr))
     (Some (c_wim.RESHDR_DISK.Hash reshdr)).

Definition is_metadata (self : t) : bool :=
  negb (Z.land (flags self) c_wim.RESHDR_FLAG.METADATA =? 0).

Definition is_compressed (self : t) : bool :=
  negb (Z.land (flags self) c_wim.RESHDR_FLAG.COMPRESSED =? 0).

Definition is_spanned (self : t) : bool :=
  negb (Z.land (flags self) c_wim.RESHDR_FLAG.SPANNED =? 0).

Definition open (DECOMPRESSOR_MAP : decompressor_map) (self : t) : result stream :=
  if is_spanned self then Raise NotImplementedError
  else if is_compressed self then
    let compression_flags :=
      Z.land (c_wim.WIMHEADER_V1_PACKED.Flags (handle_header (wim self)))
             0xFFFF0000 in
    match DECOMPRESSOR_MAP compression_flags with
    | None => Raise NotImplementedError
    | Some decompressor =>
        bind (CompressedStream.__init__ (handle_fh (wim self)) (offset self)
                (size self) (original_size self) decompressor)
             (fun s => Ok (Compressed s))
    end
  else Ok (RelativeStream (handle_fh (wim self)) (offset self) (size self)).

End Resource.

(* ================================================================== *)
(** ** [WIM] *)

Module WIM.

Record t : Type := mk {
  fh : BinaryIO;
  header : c_wim.WIMHEADER_V1_PACKED.t;
  _resource_table : dict (option bytes) Resource.t;
  _images : list Resource.t
}.

(** The body of the [for] loop of [_read_resource_table], for the entry
    [reshdr] that [c_wim._RESHDR_DISK(fh)] has read. *)
Definition _read_resource_table_step (self : wim_handle)
    (acc : dict (option bytes) Resource.t * list Resource.t)
    (reshdr : c_wim.RESHDR_DISK.t)
  : dict (option bytes) Resource.t * list Resource.t :=
  let '(table, images) := acc in
  let resource := Resource.from_header self reshdr in
  let table := dict_set opt_bytes_eqb table (Resource.hash resource) resource in
  let images := if Resource.is_metadata resource
                then images ++ [resource] else images in
  (table, images).

(** [_read_resource_table].  [read_entries] stands for the reads of the
    loop: from the opened offset-table resource, the [fh.size // 50]
    entries [c_wim._RESHDR_DISK(fh)] returns in turn, or the exception that
    ends them. *)
Definition _read_resource_table (DECOMPRESSOR_MAP : decompressor_map)
    (read_entries : stream -> result (list c_wim.RESHDR_DISK.t))
    (self : wim_handle)
  : result (dict (option bytes) Resource.t * list Resource.t) :=
  bind (Resource.open DECOMPRESSOR_MAP
          (Resource.from_short_header self
             (c_wim.WIMHEADER_V1_PACKED.OffsetTable (handle_header self))))
       (fun fh =>
  bind (read_entries fh) (fun reshdrs =>
  Ok (fold_left (_read_resource_table_step self) reshdrs ([], [])))).

(** [WIM.__init__]; [header] is what [c_wim.WIMHEADER_V1_PACKED(fh)] has
    read. *)
Definition __init__ (DECOMPRESSOR_MAP : decompressor_map)
    (read_entries : stream -> result (list c_wim.RESHDR_DISK.t))
    (fh : BinaryIO) (header : c_wim.WIMHEADER_V1_PACKED.t) : result t :=
  if negb (bytes_eqb (c_wim.WIMHEADER_V1_PACKED.ImageTag header)
                     c_wim.WIM_IMAGE_TAG) then
    Raise InvalidHeaderError
  else if negb (c_wim.WIMHEADER_V1_PACKED.Version header
                =? c_wim.VERSION_DEFAULT) then
    Raise NotImplementedError
  else if negb (Z.land (c_wim.WIMHEADER_V1_PACKED.Flags header)
                       c_wim.HEADER_FLAG.SPANNED =? 0) then
    Raise NotImplementedError
  else
    bind (_read_resource_table DECOMPRESSOR_MAP read_entries
            (mkHandle fh header))
         (fun '(table, images) => Ok (mk fh header table images)).

(** [resources]: the values of the table, in the order of the keys. *)
Definition resources (self : t) : list Resource.t :=
  dict_values (_resource_table self).

(** The shape [_read_resource_table] gives the table: no key stands twice,
    and every resource stands under its own hash, a [bytes] object. *)
Definition keyed_by_hash (table : dict (option bytes) Resource.t) : Prop :=
  NoDup (map fst table)
  /\ forall k r, In (k, r) table -> Resource.hash r = k /\ k <> None.

End WIM.

(* ================================================================== *)
(** ** [SecurityBlock] *)

Module SecurityBlock.

Record t : Type := mk {
  header : c_wim.SECURITYBLOCK_DISK.t;
  descriptors : list bytes
}.

(** The [for size in self.header.EntryLength] loop: the descriptors it
    appends, in order, and the file object after the reads. *)
Fixpoint read_descriptors (sizes : list Z) (fh : BinaryIO)
  : list bytes * BinaryIO :=
  match sizes with
  | [] => ([], fh)
  | size :: sizes' =>
      if size =? 0 then read_descriptors sizes' fh
      else
        let '(descriptor, fh) := read fh size in
        let '(rest, fh) := read_descriptors sizes' fh in
        (descriptor :: rest, fh)
  end.

(** [SecurityBlock.__init__]; [header] is what
    [c_wim._SECURITYBLOCK_DISK(fh)] has read and [fh] the file object it
    has left behind, its cursor after the header. *)
Definition __init__ (header : c_wim.SECURITYBLOCK_DISK.t) (fh : BinaryIO)
  : t * BinaryIO :=
  let '(descriptors, fh) :=
    read_descriptors (c_wim.SECURITYBLOCK_DISK.EntryLength header) fh in
  (mk header descriptors, fh).

End SecurityBlock.

(* ================================================================== *)
(** ** [ReparsePoint] *)

Module ReparsePoint.

Record t : Type := mk {
  tag : Z;
  info : option c_wim.REPARSE_BUFFER.t;
  _buf : bytes
}.

(** [ReparsePoint.__init__]; [fh] is the opened default stream of the
    entry, and the two parsers stand for the structures of [c_wim]. *)
Definition __init__
    (MOUNT_POINT_REPARSE_BUFFER SYMBOLIC_LINK_REPARSE_BUFFER :
       BinaryIO -> result (c_wim.REPARSE_BUFFER.t * BinaryIO))
    (tag : Z) (fh : BinaryIO) : result t :=
  bind (if tag =? c_wim.IO_REPARSE_TAG.MOUNT_POINT then
          bind (MOUNT_POINT_REPARSE_BUFFER fh) (fun '(i, fh) => Ok (Some i, fh))
        else if tag =? c_wim.IO_REPARSE_TAG.SYMLINK then
          bind (SYMBOLIC_LINK_REPARSE_BUFFER fh) (fun '(i, fh) => Ok (Some i, fh))
        else Ok (None, fh))
       (fun '(info, fh) =>
  let '(buf, _) := read fh (-1) in
  Ok (mk tag info buf)).

(** The values an attribute of a [ReparsePoint] can hold. *)
Inductive value : Type :=
| VNone
| VInt (z : Z)
| VStruct (s : c_wim.REPARSE_BUFFER.t)
| VBytes (b : bytes).

(** [self.<name>] for a name that is not a property: the attributes are
    the three [__init__] assigns, any other name raises [AttributeError]
    (the class has no [__getattr__] and no class attribute). *)
Definition getattr (self : t) (name : string) : result value :=
  if String.eqb name "tag" then Ok (VInt (tag self))
  else if String.eqb name "info" then
    Ok (match info self with Some i => VStruct i | None => VNone end)
  else if String.eqb name "_buf" then Ok (VBytes (_buf self))
  else Raise AttributeError.

(** [not v]. *)
Definition is_falsy (v : value) : bool :=
  match v with
  | VNone => true
  | VInt z => z =? 0
  | VStruct s => negb (c_wim.REPARSE_BUFFER.__bool__ s)
  | VBytes b => match b with [] => true | _ => false end
  end.

(** [self._buf[offset : offset + length].decode("utf-16-le")] after the
    guard of the two name properties; [utf_16_le] is the codec. *)
Definition decode_name (utf_16_le : bytes -> result string) (self : t)
    (offset length : c_wim.REPARSE_BUFFER.t -> Z) : result (option string) :=
  match info self with
  | None => Raise AttributeError    (* an attribute of [None] *)
  | Some i =>
      bind (utf_16_le (slice (_buf self) (offset i) (offset i + length i)))
           (fun s => Ok (Some s))
  end.

Definition substitute_name (utf_16_le : bytes -> result string) (self : t)
  : result (option string) :=
  bind (getattr self "tag_header") (fun tag_header =>
  if is_falsy tag_header then Ok None
  else decode_name utf_16_le self
         c_wim.REPARSE_BUFFER.SubstituteNameOffset
         c_wim.REPARSE_BUFFER.SubstituteNameLength).

Definition print_name (utf_16_le : bytes -> result string) (self : t)
  : result (option string) :=
  bind (getattr self "info") (fun info =>
  if is_falsy info then Ok None
  else decode_name utf_16_le self
         c_wim.REPARSE_BUFFER.PrintNameOffset
         c_wim.REPARSE_BUFFER.PrintNameLength).

(** [self.info.Flags], where [info] can be [None] and only the buffer of a
    symbolic link has [Flags]. *)
Definition info_Flags (self : t) : result Z :=
  match info self with
  | None => Raise AttributeError
  | Some i =>
      match c_wim.REPARSE_BUFFER.Flags i with
      | None => Raise AttributeError
      | Some flags => Ok flags
      end
  end.

Definition absolute (self : t) : result bool :=
  if negb (tag self =? c_wim.IO_REPARSE_TAG.SYMLINK) then Ok true
  else bind (info_Flags self) (fun flags =>
       Ok (flags =? c_wim.SYMLINK_FLAG.ABSOLUTE)).

Definition relative (self : t) : result bool :=
  if negb (tag self =? c_wim.IO_REPARSE_TAG.SYMLINK) then Ok false
  else bind (info_Flags self) (fun flags =>
       Ok (flags =? c_wim.SYMLINK_FLAG.RELATIVE)).

End ReparsePoint.

(** Convert Windows timestamps to nanosecond timestamps. *)
Definition _ts_to_ns (ts : Z) : Z := (ts * 100) - 11644473600000000000.

(* ================================================================== *)
(** ** [DirectoryEntry] *)

Module DirectoryEntry.

Record t : Type := mk {
  entry : c_wim.DIRENTRY.t;
  name : option string;
  short_name : option string;
  extra : option bytes;
  streams : dict string bytes
}.

(** The exceptions the parse of a directory record can end with: a record
    cut short, a name that is not UTF-16, or a read of the stream that
    fails. *)
Inductive parse_error : Set := Truncated | BadName | ReadFailure.

Definition exn_of_parse_error (e : parse_error) : exn :=
  match e with
  | Truncated => EOFError
  | BadName => UnicodeDecodeError
  | ReadFailure => OSError
  end.

(** The metadata stream [self.fh] that all the entries of an image share,
    as the loop of [iterdir] reads it: at a given [SubdirOffset], the
    entries [DirectoryEntry(self.image, fh)] builds one after the other up
    to the terminator (a length of at most 8), and the exception of the
    parse when one ends the iteration before a terminator. *)
Definition metadata : Type := Z -> list t * option parse_error.

(** Return whether this entry is a directory. *)
Definition is_dir (self : t) : bool :=
  Z.land (c_wim.DIRENTRY.Attributes (entry self))
         (Z.lor c_wim.FILE_ATTRIBUTE.DIRECTORY
                c_wim.FILE_ATTRIBUTE.REPARSE_POINT)
  =? c_wim.FILE_ATTRIBUTE.DIRECTORY.

(** Return whether this entry is a regular file. *)
Definition is_file (self : t) : bool := negb (is_dir self).

(** Return whether this entry is a reparse point. *)
Definition is_reparse_point (self : t) : bool :=
  negb (Z.land (c_wim.DIRENTRY.Attributes (entry self))
               c_wim.FILE_ATTRIBUTE.REPARSE_POINT =? 0).

Definition is_symlink (self : t) : bool :=
  is_reparse_point self
  && (c_wim.DIRENTRY.ReparseTag (entry self) =? c_wim.IO_REPARSE_TAG.SYMLINK).

Definition is_mount_point (self : t) : bool :=
  is_reparse_point self
  && (c_wim.DIRENTRY.ReparseTag (entry self)
      =? c_wim.IO_REPARSE_TAG.MOUNT_POINT).

(** Return the creation time in nanoseconds. *)
Definition creation_time_ns (self : t) : Z :=
  _ts_to_ns (c_wim.DIRENTRY.CreationTime (entry self)).

(** Return the last access time in nanoseconds. *)
Definition last_access_time_ns (self : t) : Z :=
  _ts_to_ns (c_wim.DIRENTRY.LastAccessTime (entry self)).

(** Return the last write time in nanoseconds. *)
Definition last_write_time_ns (self : t) : Z :=
  _ts_to_ns (c_wim.DIRENTRY.LastWriteTime (entry self)).

(** [iterdir], a generator: the entries it yields and, when it does not
    end by returning, the exception that ends it.  The test on [is_dir]
    runs when the first entry is asked for. *)
Definition iterdir (fh : metadata) (self : t) : list t * option exn :=
  if negb (is_dir self) then ([], Some NotADirectoryError)
  else
    let '(entries, failure) := fh (c_wim.DIRENTRY.SubdirOffset (entry self)) in
    (entries, option_map exn_of_parse_error failure).

(** [hash is None] in [open]: [hash] is there the builtin function of that
    name, which is not [None]. *)
Definition builtin_hash_is_None : bool := false.

(** The [for resource in self.image.wim.resources()] loop of [open] with
    its [else] branch. *)
Fixpoint open_scan (DECOMPRESSOR_MAP : decompressor_map)
    (resources : list Resource.t) (stream_hash : option bytes) : result stream :=
  match resources with
  | [] => Raise FileNotFoundError
  | resource :: rest =>
      if opt_bytes_eqb (Resource.hash resource) stream_hash
      then Resource.open DECOMPRESSOR_MAP resource
      else open_scan DECOMPRESSOR_MAP rest stream_hash
  end.

(** [open]; [wim] is [self.image.wim]. *)
Definition open (DECOMPRESSOR_MAP : decompressor_map) (wim : WIM.t)
    (self : t) (name : string) : result stream :=
  let stream_hash := dict_get String.eqb (streams self) name in
  if builtin_hash_is_None then Raise FileNotFoundError
  else open_scan DECOMPRESSOR_MAP (WIM.resources wim) stream_hash.

(** Return parsed reparse point data if this directory entry is a reparse
    point.  [contents] is the stream [self.open()] returns as the file
    object whose reads [ReparsePoint] makes, and the two parsers stand for
    the structures of [c_wim]. *)
Definition reparse_point (DECOMPRESSOR_MAP : decompressor_map)
    (MOUNT_POINT_REPARSE_BUFFER SYMBOLIC_LINK_REPARSE_BUFFER :
       BinaryIO -> result (c_wim.REPARSE_BUFFER.t * BinaryIO))
    (contents : stream -> BinaryIO) (wim : WIM.t) (self : t)
  : result ReparsePoint.t :=
  if negb (is_reparse_point self) then Raise NotAReparsePointError
  else
    bind (open DECOMPRESSOR_MAP wim self EmptyString) (fun fh =>
    ReparsePoint.__init__ MOUNT_POINT_REPARSE_BUFFER
      SYMBOLIC_LINK_REPARSE_BUFFER
      (c_wim.DIRENTRY.ReparseTag (entry self)) (contents fh)).

(** [a == b] for two names, each [None] or a string. *)
Definition name_eqb (a b : option string) : bool :=
  match a, b with
  | Some x, Some y => String.eqb x y
  | None, None => true
  | _, _ => false
  end.

(** Return a directory listing:
    [{entry.name: entry for entry in self.iterdir()}]. *)
Definition listdir (fh : metadata) (self : t)
  : result (dict (option string) t) :=
  let '(entries, failure) := iterdir fh self in
  match failure with
  | Some e => Raise e
  | None =>
      Ok (fold_left (fun d entry => dict_set name_eqb d (name entry) entry)
                    entries [])
  end.

(** *** The parse of the metadata stream

    [DirectoryEntry.__init__] and the loop of [iterdir] on the bytes of
    the stream.  A step of the parse takes the file object and gives a
    value and the file object after it, or the exception that ends the
    parse. *)
Definition parser (A : Type) : Type := BinaryIO -> parse_error + (A * BinaryIO).

Definition ret {A} (a : A) : parser A := fun fh => inr (a, fh).

Definition fail {A} (e : parse_error) : parser A := fun _ => inl e.

Definition and_then {A B} (c : parser A) (k : A -> parser B) : parser B :=
  fun fh =>
    match c fh with
    | inl e => inl e
    | inr (a, fh') => k a fh'
    end.

Notation "x <- c ;; k" := (and_then c (fun x => k))
  (at level 61, c at next level, right associativity).

(** [fh.tell()], [fh.seek(p)] and [fh.read(n)]. *)
Definition tell_ : parser Z := fun fh => inr (tell fh, fh).

Definition seek_ (p : Z) : parser unit := fun fh => inr (tt, seek fh p).

Definition read_ (n : Z) : parser bytes := fun fh => inr (read fh n).

(** [c_wim._X(fh)] for a structure of fixed size. *)
Definition cstruct {T} (X : c_wim.structure T) : parser T :=
  buf <- read_ (c_wim.sizeof X) ;;
  if len buf <? c_wim.sizeof X then fail Truncated
  else ret (c_wim.decode X buf).

(** A step of the parse that leaves the content of the stream as it is
    and does not move the cursor back. *)
Definition forward {A} (c : parser A) : Prop :=
  forall fh a fh',
    c fh = inr (a, fh') -> data fh' = data fh /\ pos fh <= pos fh'.

(** The two structures of [c_wim] the parse reads, and the codec of
    [bytes.decode("utf-16-le")]: the string, or nothing where Python
    raises [UnicodeDecodeError]. *)
Record types : Type := mkTypes {
  _DIRENTRY : c_wim.structure c_wim.DIRENTRY.t;
  _STREAMENTRY : c_wim.structure c_wim.STREAMENTRY.t;
  utf_16_le : bytes -> option string
}.

(** [fh.read(length).decode("utf-16-le")] and the [fh.read(2)] after it. *)
Definition read_name (T : types) (length : Z) : parser string :=
  buf <- read_ length ;;
  match utf_16_le T buf with
  | None => fail BadName
  | Some s => _ <- read_ 2 ;; ret s
  end.

(** The body of the [for _ in range(self.entry.Streams)] loop, [count]
    times, on the dictionary [streams]. *)
Fixpoint read_streams (T : types) (count : nat) (streams : dict string bytes)
  : parser (dict string bytes) :=
  match count with
  | O => ret streams
  | S count' =>
      position <- tell_ ;;
      _ <- seek_ (Z.land (position + 7) (-8)) ;;
      stream <- cstruct (_STREAMENTRY T) ;;
      named <-
        (let name_length := c_wim.STREAMENTRY.StreamNameLength stream in
         if name_length =? 0 then ret (EmptyString, name_length)
         else name <- read_name T name_length ;; ret (name, name_length + 2)) ;;
      let '(name, name_length) := named in
      let streams :=
        dict_set String.eqb streams name (c_wim.STREAMENTRY.Hash stream) in
      let remaining :=
        c_wim.STREAMENTRY.Length stream - c_wim.sizeof (_STREAMENTRY T)
        - name_length in
      _ <- (if remaining =? 0 then ret [] else read_ remaining) ;;
      read_streams T count' streams
  end.

(** [DirectoryEntry.__init__]. *)
Definition __init__ (T : types) : parser t :=
  start <- tell_ ;;
  entry <- cstruct (_DIRENTRY T) ;;
  name <-
    (let length := c_wim.DIRENTRY.FileNameLength entry in
     if length =? 0 then ret None
     else name <- read_name T length ;; ret (Some name)) ;;
  short_name <-
    (let length := c_wim.DIRENTRY.ShortNameLength entry in
     if length =? 0 then ret None
     else name <- read_name T length ;; ret (Some name)) ;;
  end_ <- tell_ ;;
  extra <-
    (let length :=
       c_wim.DIRENTRY.Length entry - ((Z.land (end_ + 7) (-8)) - start) in
     if length >? 0 then extra <- read_ length ;; ret (Some extra)
     else
       let length := c_wim.DIRENTRY.Length entry - (end_ - start) in
       if length >? 0 then extra <- read_ length ;; ret (Some extra)
       else ret None) ;;
  streams <-
    (if c_wim.DIRENTRY.Streams entry =? 0 then
       (* Add the entry hash as the default stream *)
       ret [(EmptyString, c_wim.DIRENTRY.Hash entry)]
     else
       read_streams T (Z.to_nat (c_wim.DIRENTRY.Streams entry)) []) ;;
  ret (mk entry name short_name extra streams).

(** The [while True] loop of [iterdir], after the seek to [SubdirOffset]:
    the entries it yields and the exception of the parse when one ends
    it.  [fh.seek(-8, io.SEEK_CUR)] does not go below 0.  The stream is
    the one all the entries share: this is the run of the generator for
    a consumer that leaves the cursor where it is between two entries, as
    [get] and [listdir] do.  The loop has no bound of its own; [None] is
    the loop still running when the fuel is spent. *)
Fixpoint iterdir_loop (T : types) (fuel : nat) (fh : BinaryIO)
  : option (list t * option parse_error) :=
  match fuel with
  | O => None
  | S fuel' =>
      let '(buf, fh) := read fh 8 in
      let length := int_from_bytes_little buf in
      if length <=? 8 then Some ([], None)
      else
        let fh := seek fh (Z.max 0 (tell fh + -8)) in
        match __init__ T fh with
        | inl e => Some ([], Some e)
        | inr (entry, fh) =>
            let fh := seek fh (Z.land (tell fh + 7) (-8)) in
            match iterdir_loop T fuel' fh with
            | None => None
            | Some (entries, failure) => Some (entry :: entries, failure)
            end
        end
  end.

(** Fuel for the loop from the cursor of [fh]: every turn that yields an
    entry moves the cursor forward, and the loop stops at the end of the
    stream. *)
Definition iterdir_fuel (fh : BinaryIO) : nat :=
  S (Z.to_nat (len (data fh) - pos fh)).

(** The metadata stream [fh] as [iterdir] reads it, for the iterations
    that come to an end with that fuel. *)
Definition metadata_of (T : types) (fh : BinaryIO) : metadata :=
  fun subdir =>
    let fh := seek fh subdir in
    match iterdir_loop T (iterdir_fuel fh) fh with
    | Some listing => listing
    | None => ([], None)
    end.

End DirectoryEntry.

(* ================================================================== *)
(** ** [Image] *)

Module Image.

(** [fh] is the metadata stream the image is parsed from, which every
    entry of the image keeps as [self.fh]. *)
Record t : Type := mk {
  wim : WIM.t;
  security : SecurityBlock.t;
  root : DirectoryEntry.t;
  fh : DirectoryEntry.metadata
}.

(** [entry.name == part], where the name of an entry is [None] or a
    string. *)
Definition name_is (entry : DirectoryEntry.t) (part : string) : bool :=
  match DirectoryEntry.name entry with
  | Some n => String.eqb n part
  | None => false
  end.

(** The inner [for entry in entry.iterdir()] loop of [get] with its [else]
    branch, over what the generator yields. *)
Fixpoint find_child (entries : list DirectoryEntry.t) (failure : option exn)
    (part : string) : result DirectoryEntry.t :=
  match entries with
  | [] => match failure with
          | Some e => Raise e
          | None => Raise FileNotFoundError
          end
  | entry :: rest =>
      if name_is entry part then Ok entry else find_child rest failure part
  end.

(** The outer [for part in parts] loop of [get]. *)
Fixpoint traverse (fh : DirectoryEntry.metadata) (parts : list string)
    (entry : DirectoryEntry.t) : result DirectoryEntry.t :=
  match parts with
  | [] => Ok entry
  | part :: parts' =>
      if String.eqb part EmptyString then traverse fh parts' entry
      else
        (* Traverse to the target path from our root node *)
        let '(entries, failure) := DirectoryEntry.iterdir fh entry in
        bind (find_child entries failure part) (traverse fh parts')
  end.

(** The parts [get] walks through. *)
Definition search_parts (path : string) : list string :=
  (* `/` is an illegal character in NTFS filenames, so it's safe to replace *)
  let search_path := str_replace "/" "\" path in
  str_split "\" search_path.

Definition get (self : t) (path : string) (entry : option DirectoryEntry.t)
  : result DirectoryEntry.t :=
  let parts := search_parts path in
  let entry := match entry with Some e => e | None => root self end in
  traverse (fh self) parts entry.

(** [Image.__init__]; [_SECURITYBLOCK_DISK] stands for the structure of
    [c_wim], whose size depends on its number of entries. *)
Definition __init__ (T : DirectoryEntry.types)
    (_SECURITYBLOCK_DISK : DirectoryEntry.parser c_wim.SECURITYBLOCK_DISK.t)
    (wim : WIM.t) (fh : BinaryIO) : DirectoryEntry.parse_error + t :=
  match _SECURITYBLOCK_DISK fh with
  | inl e => inl e
  | inr (header, fh) =>
      let '(security, fh) := SecurityBlock.__init__ header fh in
      let offset := tell fh in
      let fh := seek fh (offset + Z.land (- offset) 7) in
      match DirectoryEntry.__init__ T fh with
      | inl e => inl e
      | inr (root, _) =>
          inr (mk wim security root (DirectoryEntry.metadata_of T fh))
      end
  end.

End Image.

(* ================================================================== *)
(** ** The layouts of the specification

    Definitions that follow the words of the specification, to compare the
    reader with. *)

Module Spec.

(** The descriptors of a security block: after the header, one run of
    bytes for each entry length, in the order of the lengths. *)
Fixpoint security_descriptors (lengths : list Z) (buf : bytes) : list bytes :=
  match lengths with
  | [] => []
  | n :: lengths' =>
      firstn (Z.to_nat n) buf
      :: security_descriptors lengths' (skipn (Z.to_nat n) buf)
  end.

(** The sum of the entry lengths: the bytes the descriptors take. *)
Definition total (lengths : list Z) : Z := fold_right Z.add 0 lengths.

End Spec.

(* ================================================================== *)
(** ** Sample archives

    Concrete values the statements below are run on. *)

Module Sample.

(** *** A resource of three stored chunks

    96 KiB of content in twelve blocks of 8 KiB, block [k] filled with the
    byte [k], stored as it is (the decompressor is the identity).  The
    resource is the whole file: the chunk table, two entries of 4 bytes
    giving where chunks 1 and 2 start after the table ([0x8000] and
    [0x10000]), then the three chunks. *)
Definition byte_of_Z (z : Z) : byte :=
  match Byte.of_N (Z.to_N (z mod 256)) with
  | Some b => b
  | None => x00
  end.

Definition content3 : bytes :=
  flat_map (fun k => repeat (byte_of_Z (Z.of_nat k)) (Z.to_nat 8192))
           (seq 0 12).

Definition table3 : bytes := [x00; x80; x00; x00; x00; x00; x01; x00].

Definition file3 : BinaryIO := mkIO (table3 ++ content3) 0.

Definition stored (buf : bytes) : bytes := buf.

(** The stream [CompressedStream(file3, 0, 98312, 98304, stored)] is. *)
Definition stream3 : CompressedStream.t :=
  CompressedStream.mk (mkIO (table3 ++ content3) 8) 0 98312 98304 stored
                      [32768; 65536].

(** *** An archive with chunks of 4 KiB

    A header announcing XPRESS compression in chunks of [0x1000] bytes, and
    a compressed resource of 5000 bytes of content. *)
Definition XPRESS : Z := 0x00020000.

Definition decompressors : decompressor_map :=
  fun key => if key =? XPRESS then Some stored else None.





(** *** A security block with an empty descriptor *)
Definition security_header : c_wim.SECURITYBLOCK_DISK.t :=
  c_wim.SECURITYBLOCK_DISK.mk 24 2 [0; 2].

Definition security_fh : BinaryIO :=
  mkIO (repeat x00 (Z.to_nat 16) ++ [x01; x02; x03; x04; x05; x06; x07; x08]) 16.

(** *** An image shaped as the one of the tests

    The root holds [ads.txt], [dir], [file.txt] and [link.txt]; [dir] holds
    [another.txt]. *)
Definition hash_of (b : byte) : bytes := repeat b (Z.to_nat 20).

Definition dirent (attributes subdir : Z) (h : bytes) (tag : Z) (n : string)
  : DirectoryEntry.t :=
  DirectoryEntry.mk
    (c_wim.DIRENTRY.mk 104 attributes subdir 0 0 0 h tag 0 0
                       (2 * Z.of_nat (String.length n)))
    (Some n) None None [(EmptyString, h)].

Definition root_entry : DirectoryEntry.t :=
  DirectoryEntry.mk
    (c_wim.DIRENTRY.mk 104 c_wim.FILE_ATTRIBUTE.DIRECTORY 128 0 0 0
                       (hash_of x00) 0 0 0 0)
    None None None [(EmptyString, hash_of x00)].

Definition ads_txt : DirectoryEntry.t :=
  DirectoryEntry.mk
    (c_wim.DIRENTRY.mk 120 0x20 0 0 0 0 (hash_of x00) 0 2 0 14)
    (Some "ads.txt"%string) None None
    [(EmptyString, hash_of x01); ("spookystream"%string, hash_of x02)].

Definition dir : DirectoryEntry.t :=
  dirent c_wim.FILE_ATTRIBUTE.DIRECTORY 640 (hash_of x00) 0 "dir".

Definition file_txt : DirectoryEntry.t :=
  dirent 0x20 0 (hash_of x03) 0 "file.txt".

Definition link_txt : DirectoryEntry.t :=
  dirent (Z.lor 0x20 c_wim.FILE_ATTRIBUTE.REPARSE_POINT) 0 (hash_of x04)
         c_wim.IO_REPARSE_TAG.MOUNT_POINT "link.txt".

Definition another_txt : DirectoryEntry.t :=
  dirent 0x20 0 (hash_of x05) 0 "another.txt".

(** A junction: a directory that is a mount point (not in the image). *)
Definition junction : DirectoryEntry.t :=
  dirent (Z.lor c_wim.FILE_ATTRIBUTE.DIRECTORY c_wim.FILE_ATTRIBUTE.REPARSE_POINT)
         0 (hash_of x04) c_wim.IO_REPARSE_TAG.MOUNT_POINT "junction".

Definition listing : DirectoryEntry.metadata :=
  fun subdir =>
    if subdir =? 128 then ([ads_txt; dir; file_txt; link_txt], None)
    else if subdir =? 640 then ([another_txt], None)
    else ([], None).

(** The resource table of the archive: the content of four streams,
    stored as it is; the reparse data of [link.txt] has no resource. *)
Definition reshdr (offset size : Z) (h : bytes) : c_wim.RESHDR_DISK.t :=
  c_wim.RESHDR_DISK.mk
    (c_wim.RESHDR_DISK_SHORT.mk
       [byte_of_Z size; x00; x00; x00; x00; x00; x00] 0 offset size)
    1 1 h.

Definition reshdrs : list c_wim.RESHDR_DISK.t :=
  [reshdr 208 30 (hash_of x01); reshdr 238 38 (hash_of x02);
   reshdr 276 70 (hash_of x03); reshdr 346 60 (hash_of x05)].

Definition offset_table : c_wim.RESHDR_DISK_SHORT.t :=
  c_wim.RESHDR_DISK_SHORT.mk [xc8; x00; x00; x00; x00; x00; x00] 0 406 200.

Definition header : c_wim.WIMHEADER_V1_PACKED.t :=
  c_wim.WIMHEADER_V1_PACKED.mk c_wim.WIM_IMAGE_TAG c_wim.VERSION_DEFAULT
    (Z.lor XPRESS c_wim.HEADER_FLAG.COMPRESSION) 0x8000 offset_table.

Definition file : BinaryIO := mkIO (repeat x00 (Z.to_nat 606)) 208.

(** The same header with an offset table that is a spanned resource. *)
Definition spanned_table_header : c_wim.WIMHEADER_V1_PACKED.t :=
  c_wim.WIMHEADER_V1_PACKED.mk c_wim.WIM_IMAGE_TAG c_wim.VERSION_DEFAULT
    (Z.lor XPRESS c_wim.HEADER_FLAG.COMPRESSION) 0x8000
    (c_wim.RESHDR_DISK_SHORT.mk [xc8; x00; x00; x00; x00; x00; x00]
       c_wim.RESHDR_FLAG.SPANNED 406 200).

Definition read_entries (fh : stream) : result (list c_wim.RESHDR_DISK.t) :=
  Ok reshdrs.

Definition wim : WIM.t :=
  WIM.mk file header
    (map (fun r => (Some (c_wim.RESHDR_DISK.Hash r),
                    Resource.from_header (mkHandle file header) r)) reshdrs)
    [].

Definition image : Image.t :=
  Image.mk wim (SecurityBlock.mk (c_wim.SECURITYBLOCK_DISK.mk 8 0 []) [])
           root_entry listing.

(** A reparse point of a mount point, as [link.txt] holds one. *)
Definition mount_point : ReparsePoint.t :=
  ReparsePoint.mk c_wim.IO_REPARSE_TAG.MOUNT_POINT
    (Some (c_wim.REPARSE_BUFFER.mk 0 4 6 4 None true))
    [x43; x00; x3a; x00; x00; x00; x43; x00; x3a; x00; x00; x00].

(** A stand-in for the UTF-16 codec on these samples: the low byte of
    every code unit. *)
Fixpoint low_bytes (b : bytes) : result string :=
  match b with
  | [] => Ok EmptyString
  | [_] => Raise UnicodeDecodeError
  | c :: _ :: r =>
      bind (low_bytes r) (fun s =>
      Ok (String (ascii_of_N (Byte.to_N c)) s))
  end.

(** *** An archive with two images

    Three table entries: two metadata resources and, between them, a
    file. *)
Definition metadata_reshdr (offset size : Z) (h : bytes) : c_wim.RESHDR_DISK.t :=
  c_wim.RESHDR_DISK.mk
    (c_wim.RESHDR_DISK_SHORT.mk
       [byte_of_Z size; x00; x00; x00; x00; x00; x00]
       c_wim.RESHDR_FLAG.METADATA offset size)
    1 1 h.

Definition reshdrs_of_two_images : list c_wim.RESHDR_DISK.t :=
  [metadata_reshdr 208 90 (hash_of x06); reshdr 298 70 (hash_of x03);
   metadata_reshdr 368 38 (hash_of x07)].

Definition read_entries_of_two_images (fh : stream)
  : result (list c_wim.RESHDR_DISK.t) :=
  Ok reshdrs_of_two_images.

Definition wim_of_two_images : WIM.t :=
  WIM.mk file header
    (map (fun r => (Some (c_wim.RESHDR_DISK.Hash r),
                    Resource.from_header (mkHandle file header) r))
         reshdrs_of_two_images)
    [Resource.from_header (mkHandle file header)
       (metadata_reshdr 208 90 (hash_of x06));
     Resource.from_header (mkHandle file header)
       (metadata_reshdr 368 38 (hash_of x07))].

(** *** The reparse data of a mount point

    A parser of the samples for the two reparse buffers: four
    little-endian numbers of two bytes, then the names.  The structure
    is true when one of its fields is not 0. *)
Definition reparse_buffer (fh : BinaryIO)
  : result (c_wim.REPARSE_BUFFER.t * BinaryIO) :=
  let '(buf, fh') := read fh 8 in
  if len buf <? 8 then Raise EOFError
  else Ok (c_wim.REPARSE_BUFFER.mk
             (int_from_bytes_little (slice buf 0 2))
             (int_from_bytes_little (slice buf 2 4))
             (int_from_bytes_little (slice buf 4 6))
             (int_from_bytes_little (slice buf 6 8)) None
             (negb (int_from_bytes_little buf =? 0)), fh').

Definition link_data : BinaryIO :=
  mkIO [x00; x00; x04; x00; x06; x00; x04; x00;
        x43; x00; x3a; x00; x00; x00; x43; x00; x3a; x00; x00; x00] 0.

(** Reparse data of which every field is 0. *)
Definition blank_link_data : BinaryIO := mkIO (repeat x00 (Z.to_nat 8)) 0.


(** *** A metadata stream

    Layouts for the records of the samples, their fields in the order of
    the WIM format, numbers little-endian: a directory record of 106
    bytes ([Length] at 0, [Attributes] at 8, [SubdirOffset] at 16, the
    three times from 40, [Hash] at 64, [ReparseTag] at 84, [Streams] at
    100, [ShortNameLength] at 102, [FileNameLength] at 104), a stream
    record of 38 bytes ([Length] at 0, [Hash] at 16, [StreamNameLength]
    at 36), and a security block of two numbers of 4 bytes followed by
    [NumEntries] lengths of 8 bytes. *)
Fixpoint le (width : nat) (z : Z) : bytes :=
  match width with
  | O => []
  | S w => byte_of_Z z :: le w (z / 256)
  end.

Fixpoint utf16 (s : string) : bytes :=
  match s with
  | EmptyString => []
  | String c r => byte_of_ascii c :: x00 :: utf16 r
  end.

Definition field (buf : bytes) (i j : Z) : Z :=
  int_from_bytes_little (slice buf i j).

Definition _DIRENTRY : c_wim.structure c_wim.DIRENTRY.t :=
  c_wim.mkStructure 106 (fun buf =>
    c_wim.DIRENTRY.mk (field buf 0 8) (field buf 8 12) (field buf 16 24)
      (field buf 40 48) (field buf 48 56) (field buf 56 64) (slice buf 64 84)
      (field buf 84 88) (field buf 100 102) (field buf 102 104)
      (field buf 104 106)).

Definition _STREAMENTRY : c_wim.structure c_wim.STREAMENTRY.t :=
  c_wim.mkStructure 38 (fun buf =>
    c_wim.STREAMENTRY.mk (field buf 0 8) (slice buf 16 36) (field buf 36 38)).

Definition utf_16_le (b : bytes) : option string :=
  match low_bytes b with
  | Ok s => Some s
  | Raise _ => None
  end.

Definition types : DirectoryEntry.types :=
  DirectoryEntry.mkTypes _DIRENTRY _STREAMENTRY utf_16_le.

Definition _SECURITYBLOCK_DISK
  : DirectoryEntry.parser c_wim.SECURITYBLOCK_DISK.t :=
  fun fh =>
    let '(buf, fh) := read fh 8 in
    if len buf <? 8 then inl DirectoryEntry.Truncated
    else
      let n := field buf 4 8 in
      let '(lengths, fh) := read fh (8 * n) in
      if len lengths <? 8 * n then inl DirectoryEntry.Truncated
      else inr (c_wim.SECURITYBLOCK_DISK.mk (field buf 0 4) n
                  (unpack_items 8 (Z.to_nat n) lengths), fh).

(** A name as it stands in a record: UTF-16 and two bytes of 0, or
    nothing for the empty name. *)
Definition name_bytes (n : string) : bytes :=
  match n with
  | EmptyString => []
  | _ => utf16 n ++ [x00; x00]
  end.

Definition zeros (n : Z) : bytes := repeat x00 (Z.to_nat n).

Definition direntry (length attributes subdir : Z) (h : bytes) (streams : Z)
    (n : string) : bytes :=
  le 8 length ++ le 4 attributes ++ le 4 0 ++ le 8 subdir ++ zeros 16
  ++ zeros 24 ++ h ++ le 4 0 ++ zeros 12 ++ le 2 streams ++ le 2 0
  ++ le 2 (2 * Z.of_nat (String.length n)) ++ name_bytes n.

Definition streamentry (length : Z) (h : bytes) (n : string) : bytes :=
  le 8 length ++ zeros 8 ++ h ++ le 2 (2 * Z.of_nat (String.length n))
  ++ name_bytes n.

(** A security block with one descriptor of 3 bytes, which ends at 19;
    the root at 24; its two children [a] at 136 and [d] at 248, [d] with
    an unnamed stream at 360 and a stream [s] at 400; the terminator of
    the directory at 448. *)
Definition metadata_bytes : bytes :=
  le 4 24 ++ le 4 1 ++ le 8 3 ++ [x01; x02; x03] ++ zeros 5
  ++ direntry 112 c_wim.FILE_ATTRIBUTE.DIRECTORY 136 (hash_of x00) 0 ""
  ++ zeros 6
  ++ direntry 112 0x20 0 (hash_of x01) 0 "a" ++ zeros 2
  ++ direntry 112 0x20 0 (hash_of x00) 2 "d" ++ zeros 2
  ++ streamentry 40 (hash_of x02) "" ++ zeros 2
  ++ streamentry 48 (hash_of x03) "s" ++ zeros 6
  ++ zeros 8.

Definition metadata_fh : BinaryIO := mkIO metadata_bytes 0.

(** The entries the records of the stream describe. *)
Definition parsed_root : DirectoryEntry.t :=
  DirectoryEntry.mk
    (c_wim.DIRENTRY.mk 112 c_wim.FILE_ATTRIBUTE.DIRECTORY 136 0 0 0
                       (hash_of x00) 0 0 0 0)
    None None (Some (zeros 6)) [(EmptyString, hash_of x00)].

Definition parsed_a : DirectoryEntry.t :=
  DirectoryEntry.mk
    (c_wim.DIRENTRY.mk 112 0x20 0 0 0 0 (hash_of x01) 0 0 0 2)
    (Some "a"%string) None (Some (zeros 2)) [(EmptyString, hash_of x01)].

Definition parsed_d : DirectoryEntry.t :=
  DirectoryEntry.mk
    (c_wim.DIRENTRY.mk 112 0x20 0 0 0 0 (hash_of x00) 0 2 0 2)
    (Some "d"%string) None (Some (zeros 2))
    [(EmptyString, hash_of x02); ("s"%string, hash_of x03)].

(** The image [Image(wim, metadata_fh)] is. *)
Definition parsed_image : Image.t :=
  Image.mk wim
    (SecurityBlock.mk (c_wim.SECURITYBLOCK_DISK.mk 24 1 [3]) [[x01; x02; x03]])
    parsed_root
    (DirectoryEntry.metadata_of types (seek metadata_fh 24)).

End Sample.

(* ================================================================== *)
(** * Properties *)

(** ** Equality tests *)

Lemma bytes_eqb_eq (a b : bytes) : bytes_eqb a b = true <-> a = b.
Proof.
  revert b; induction a as [|x a IH]; intros [|y b]; simpl;
    try (split; [discriminate | congruence]); try tauto.
  rewrite andb_true_iff, IH. split.
  - intros [Hxy ->]. apply Byte.byte_dec_bl in Hxy. now subst.
  - intros [= -> ->]. split; [now apply Byte.byte_dec_lb | reflexivity].
Qed.

Lemma bytes_eqb_refl (a : bytes) : bytes_eqb a a = true.
Proof. now apply bytes_eqb_eq. Qed.

Lemma opt_bytes_eqb_eq (a b : option bytes) : opt_bytes_eqb a b = true <-> a = b.
Proof.
  destruct a as [x|], b as [y|]; simpl; try (split; [discriminate | congruence]);
    try tauto.
  rewrite bytes_eqb_eq. split; congruence.
Qed.

Lemma opt_bytes_eqb_neq (a b : option bytes) : opt_bytes_eqb a b = false <-> a <> b.
Proof.
  rewrite <- opt_bytes_eqb_eq. destruct (opt_bytes_eqb a b); split; congruence.
Qed.

(* ------------------------------------------------------------------ *)
(** ** Directory entries: [is_dir] and [is_file] *)

Section Attributes.

Variable e : DirectoryEntry.t.

Let attributes := c_wim.DIRENTRY.Attributes (DirectoryEntry.entry e).

Lemma is_dir_spec :
  DirectoryEntry.is_dir e = true
  <-> Z.land attributes
        (Z.lor c_wim.FILE_ATTRIBUTE.DIRECTORY c_wim.FILE_ATTRIBUTE.REPARSE_POINT)
      = c_wim.FILE_ATTRIBUTE.DIRECTORY.
Proof. unfold DirectoryEntry.is_dir. apply Z.eqb_eq. Qed.

(** The two bits of a reparse-point directory keep [is_dir] false: bit 10
    of the masked attributes is set, and it is not set in [DIRECTORY]. *)
Lemma reparse_directory_is_not_dir :
  Z.testbit attributes 4 = true ->
  Z.testbit attributes 10 = true ->
  DirectoryEntry.is_dir e = false.
Proof.
  intros _ H10. destruct (DirectoryEntry.is_dir e) eqn:Hd; [|reflexivity].
  apply is_dir_spec in Hd.
  apply (f_equal (fun z => Z.testbit z 10)) in Hd.
  rewrite Z.land_spec, H10 in Hd. discriminate Hd.
Qed.

End Attributes.

(** C7.  For every directory entry, [is_dir] is true exactly when the
    attributes masked by [DIRECTORY | REPARSE_POINT] equal [DIRECTORY]; an
    entry with both bits set (bit 4 and bit 10) is not a directory;
    [is_file] is the negation of [is_dir], so exactly one of the two
    holds. *)
Theorem is_dir_xor_is_file (e : DirectoryEntry.t) :
  let attributes := c_wim.DIRENTRY.Attributes (DirectoryEntry.entry e) in
  (DirectoryEntry.is_dir e = true
   <-> Z.land attributes
         (Z.lor c_wim.FILE_ATTRIBUTE.DIRECTORY c_wim.FILE_ATTRIBUTE.REPARSE_POINT)
       = c_wim.FILE_ATTRIBUTE.DIRECTORY)
  /\ (Z.testbit attributes 4 = true -> Z.testbit attributes 10 = true ->
      DirectoryEntry.is_dir e = false)
  /\ DirectoryEntry.is_file e = negb (DirectoryEntry.is_dir e)
  /\ xorb (DirectoryEntry.is_dir e) (DirectoryEntry.is_file e) = true.
Proof.
  intros attributes. repeat split.
  - apply is_dir_spec.
  - apply is_dir_spec.
  - apply reparse_directory_is_not_dir.
  - unfold DirectoryEntry.is_file. now destruct (DirectoryEntry.is_dir e).
Qed.

(** A junction has both bits: it is a file, not a directory. *)
Lemma is_dir_xor_is_file_junction :
  let attributes :=
    c_wim.DIRENTRY.Attributes (DirectoryEntry.entry Sample.junction) in
  Z.testbit attributes 4 = true
  /\ Z.testbit attributes 10 = true
  /\ DirectoryEntry.is_dir Sample.junction = false
  /\ xorb (DirectoryEntry.is_dir Sample.junction)
          (DirectoryEntry.is_file Sample.junction) = true.
Proof.
  split; [reflexivity | split; [reflexivity | split]].
  - exact (proj1 (proj2 (is_dir_xor_is_file Sample.junction)) eq_refl eq_refl).
  - exact (proj2 (proj2 (proj2 (is_dir_xor_is_file Sample.junction)))).
Defined.

(* ------------------------------------------------------------------ *)
(** ** Reparse points: [substitute_name] *)

Lemma getattr_tag_header (rp : ReparsePoint.t) :
  ReparsePoint.getattr rp "tag_header" = Raise AttributeError.
Proof. reflexivity. Qed.

(** C8.  Reading [substitute_name] raises [AttributeError] on every
    reparse point, whatever its tag and whether or not [info] was parsed:
    the guard reads [self.tag_header], which no [ReparsePoint] has.  On the
    mount point of the samples the sibling [print_name], guarded on
    [self.info], returns the name. *)
Theorem substitute_name_raises :
  (forall utf_16_le rp,
     ReparsePoint.substitute_name utf_16_le rp = Raise AttributeError)
  /\ ReparsePoint.substitute_name Sample.low_bytes Sample.mount_point
     = Raise AttributeError
  /\ ReparsePoint.print_name Sample.low_bytes Sample.mount_point
     = Ok (Some "C:"%string)
  /\ ReparsePoint.print_name Sample.low_bytes
       (ReparsePoint.mk 0 None []) = Ok None
  /\ ReparsePoint.substitute_name Sample.low_bytes
       (ReparsePoint.mk 0 None []) = Raise AttributeError.
Proof.
  repeat split; try reflexivity.
Qed.

(** The guard on [info] that [print_name] has: [None] without a parsed
    structure and with one that is false, the decoded slice of the name
    buffer with one that is true. *)
Lemma print_name_guarded utf_16_le (rp : ReparsePoint.t) :
  ReparsePoint.print_name utf_16_le rp =
  match ReparsePoint.info rp with
  | None => Ok None
  | Some i =>
      if c_wim.REPARSE_BUFFER.__bool__ i then
        bind (utf_16_le (slice (ReparsePoint._buf rp)
                           (c_wim.REPARSE_BUFFER.PrintNameOffset i)
                           (c_wim.REPARSE_BUFFER.PrintNameOffset i
                            + c_wim.REPARSE_BUFFER.PrintNameLength i)))
             (fun s => Ok (Some s))
      else Ok None
  end.
Proof.
  unfold ReparsePoint.print_name, ReparsePoint.decode_name. simpl.
  destruct (ReparsePoint.info rp) as [i|]; [|reflexivity]. simpl.
  now destruct (c_wim.REPARSE_BUFFER.__bool__ i).
Qed.

(** [info] is absent exactly for the tags [__init__] does not parse. *)
Lemma init_info mp sl tag fh rp :
  ReparsePoint.__init__ mp sl tag fh = Ok rp ->
  ReparsePoint.tag rp = tag
  /\ (ReparsePoint.info rp = None
      <-> tag <> c_wim.IO_REPARSE_TAG.MOUNT_POINT
          /\ tag <> c_wim.IO_REPARSE_TAG.SYMLINK).
Proof.
  unfold ReparsePoint.__init__.
  destruct (tag =? c_wim.IO_REPARSE_TAG.MOUNT_POINT) eqn:Hm.
  - apply Z.eqb_eq in Hm. destruct (mp fh) as [[i fh']|]; simpl; [|discriminate].
    destruct (read fh' (-1)). intros [= <-]. simpl.
    split; [reflexivity|]. split; [discriminate | tauto].
  - apply Z.eqb_neq in Hm.
    destruct (tag =? c_wim.IO_REPARSE_TAG.SYMLINK) eqn:Hs.
    + apply Z.eqb_eq in Hs. destruct (sl fh) as [[i fh']|]; simpl; [|discriminate].
      destruct (read fh' (-1)). intros [= <-]. simpl.
      split; [reflexivity|]. split; [discriminate | tauto].
    + apply Z.eqb_neq in Hs. simpl. destruct (read fh (-1)). intros [= <-]. simpl.
      split; [reflexivity|]. split; [now split | reflexivity].
Qed.

(* ------------------------------------------------------------------ *)
(** ** Archive construction: the checks on the header *)

(** The constructor of a compressed stream raises [struct.error] when it
    raises. *)
Lemma init_raises_StructError fh offset compressed_size original_size
    decompressor e :
  CompressedStream.__init__ fh offset compressed_size original_size decompressor
  = Raise e ->
  e = StructError.
Proof.
  unfold CompressedStream.__init__.
  destruct (_ =? 0); [discriminate|].
  unfold struct_unpack, struct_calcsize.
  destruct (_ <? 0); cbn [bind]; [now intros [= <-]|].
  destruct (read _ _) as [buf fh']. cbn [bind].
  destruct (len buf =? _); [discriminate | now intros [= <-]].
Qed.

(** Opening a resource raises [NotImplementedError] in the two cases that
    [open] tests for, and in no other. *)
Lemma open_NotImplementedError_iff
    (DECOMPRESSOR_MAP : decompressor_map) (resource : Resource.t) :
  Resource.open DECOMPRESSOR_MAP resource = Raise NotImplementedError
  <-> Resource.is_spanned resource = true
      \/ (Resource.is_compressed resource = true
          /\ DECOMPRESSOR_MAP
               (Z.land (c_wim.WIMHEADER_V1_PACKED.Flags
                          (handle_header (Resource.wim resource)))
                       0xFFFF0000) = None).
Proof.
  unfold Resource.open.
  destruct (Resource.is_spanned resource); [split; auto|].
  destruct (Resource.is_compressed resource);
    [|split; [discriminate | intros [H|[H _]]; discriminate]].
  destruct (DECOMPRESSOR_MAP _) as [decompressor|]; [|split; auto].
  destruct (CompressedStream.__init__ _ _ _ _ _) as [s|e] eqn:Hinit; cbn [bind].
  - split; [discriminate | intros [H|[_ H]]; discriminate].
  - apply init_raises_StructError in Hinit. subst e.
    split; [discriminate | intros [H|[_ H]]; discriminate].
Qed.

Section Construction.

Variable DECOMPRESSOR_MAP : decompressor_map.
Variable read_entries : stream -> result (list c_wim.RESHDR_DISK.t).
Variable fh : BinaryIO.
Variable header : c_wim.WIMHEADER_V1_PACKED.t.

Let tag := c_wim.WIMHEADER_V1_PACKED.ImageTag header.
Let version := c_wim.WIMHEADER_V1_PACKED.Version header.
Let spanned :=
  Z.land (c_wim.WIMHEADER_V1_PACKED.Flags header) c_wim.HEADER_FLAG.SPANNED.

Lemma init_wrong_tag :
  tag <> c_wim.WIM_IMAGE_TAG ->
  WIM.__init__ DECOMPRESSOR_MAP read_entries fh header = Raise InvalidHeaderError.
Proof.
  intros Htag. unfold WIM.__init__.
  destruct (bytes_eqb _ _) eqn:E; [|reflexivity].
  apply bytes_eqb_eq in E. contradiction.
Qed.

Lemma init_unsupported :
  tag = c_wim.WIM_IMAGE_TAG ->
  version <> c_wim.VERSION_DEFAULT \/ spanned <> 0 ->
  WIM.__init__ DECOMPRESSOR_MAP read_entries fh header = Raise NotImplementedError.
Proof.
  intros Htag Hbad. unfold WIM.__init__.
  fold tag version spanned. rewrite Htag, bytes_eqb_refl. simpl.
  destruct (version =? c_wim.VERSION_DEFAULT) eqn:Ev; [|reflexivity]. simpl.
  destruct (spanned =? 0) eqn:Es; [|reflexivity].
  apply Z.eqb_eq in Ev, Es. destruct Hbad; contradiction.
Qed.

Lemma init_proceeds :
  tag = c_wim.WIM_IMAGE_TAG ->
  version = c_wim.VERSION_DEFAULT ->
  spanned = 0 ->
  WIM.__init__ DECOMPRESSOR_MAP read_entries fh header
  = bind (WIM._read_resource_table DECOMPRESSOR_MAP read_entries
            (mkHandle fh header))
         (fun '(table, images) => Ok (WIM.mk fh header table images)).
Proof.
  intros Htag Hv Hs. unfold WIM.__init__.
  fold tag version spanned. rewrite Htag, bytes_eqb_refl, Hv, Z.eqb_refl, Hs.
  reflexivity.
Qed.

(** The later stage has failures of its own.  Opening a resource raises
    [NotImplementedError] or what the constructor of the stream raises,
    never [InvalidHeaderError]. *)
Lemma open_not_InvalidHeaderError (resource : Resource.t) :
  Resource.open DECOMPRESSOR_MAP resource <> Raise InvalidHeaderError.
Proof.
  unfold Resource.open.
  destruct (Resource.is_spanned resource); [discriminate|].
  destruct (Resource.is_compressed resource); [|discriminate].
  destruct (DECOMPRESSOR_MAP _) as [decompressor|]; [|discriminate].
  unfold CompressedStream.__init__.
  destruct (_ =? 0); [discriminate|].
  unfold struct_unpack, struct_calcsize.
  destruct (_ <? 0); [discriminate|]. cbn [bind].
  destruct (read _ _) as [buf fh']. cbn [bind].
  destruct (len buf =? _); discriminate.
Qed.

(** So, when the reads of the table entries do not raise it either,
    construction fails with [InvalidHeaderError] exactly when the tag is
    wrong. *)
Lemma init_InvalidHeaderError_iff :
  (forall s, read_entries s <> Raise InvalidHeaderError) ->
  WIM.__init__ DECOMPRESSOR_MAP read_entries fh header = Raise InvalidHeaderError
  <-> tag <> c_wim.WIM_IMAGE_TAG.
Proof.
  intros Hreads. split; [|apply init_wrong_tag].
  intros Hraise Htag. revert Hraise. unfold WIM.__init__.
  fold tag version spanned. rewrite Htag, bytes_eqb_refl. cbn [negb].
  destruct (negb (version =? _)); [discriminate|].
  destruct (negb (spanned =? 0)); [discriminate|].
  unfold WIM._read_resource_table.
  destruct (Resource.open _ _) as [s|e] eqn:Hopen; cbn [bind].
  - specialize (Hreads s). destruct (read_entries s) as [reshdrs|e]; cbn [bind].
    + now destruct (fold_left _ reshdrs _).
    + congruence.
  - intros [= ->]. now apply open_not_InvalidHeaderError in Hopen.
Qed.

(** With the right tag, construction fails with [NotImplementedError] in
    the two cases of the header, and otherwise only when the reading of
    the resource table does. *)
Lemma init_NotImplementedError_iff :
  tag = c_wim.WIM_IMAGE_TAG ->
  WIM.__init__ DECOMPRESSOR_MAP read_entries fh header = Raise NotImplementedError
  <-> version <> c_wim.VERSION_DEFAULT
      \/ spanned <> 0
      \/ WIM._read_resource_table DECOMPRESSOR_MAP read_entries
           (mkHandle fh header) = Raise NotImplementedError.
Proof.
  intros Htag.
  destruct (Z.eq_dec version c_wim.VERSION_DEFAULT) as [Hv|Hv];
    [|split; [now left | intros _; apply init_unsupported; tauto]].
  destruct (Z.eq_dec spanned 0) as [Hs|Hs];
    [|split; [now (right; left) | intros _; apply init_unsupported; tauto]].
  rewrite (init_proceeds Htag Hv Hs).
  destruct (WIM._read_resource_table _ _ _) as [[table images]|e]; cbn [bind].
  - split; [discriminate | intros [H|[H|H]]; congruence].
  - split; [intros [= ->]; now (right; right) | intros [H|[H|H]]; congruence].
Qed.

(** The reading of the resource table fails with [NotImplementedError]
    when the opening of the offset-table resource does, or the reads of
    its entries do. *)
Lemma table_NotImplementedError_iff :
  (forall s, read_entries s <> Raise NotImplementedError) ->
  WIM._read_resource_table DECOMPRESSOR_MAP read_entries (mkHandle fh header)
  = Raise NotImplementedError
  <-> Resource.open DECOMPRESSOR_MAP
        (Resource.from_short_header (mkHandle fh header)
           (c_wim.WIMHEADER_V1_PACKED.OffsetTable header))
      = Raise NotImplementedError.
Proof.
  intros Hreads. unfold WIM._read_resource_table. cbn [handle_header].
  destruct (Resource.open _ _) as [s|e]; cbn [bind];
    [|split; intros [= ->]; reflexivity].
  specialize (Hreads s).
  destruct (read_entries s) as [reshdrs|e]; cbn [bind];
    split; try discriminate; congruence.
Qed.

End Construction.

(** C4.  Construction of an archive from a header, where the reads of
    the table entries raise neither of the two exceptions.  It fails with
    [InvalidHeaderError] exactly when the image tag is not
    [MSWIM\0\0\0].  With that tag it fails with [NotImplementedError]
    (the reader's "unsupported") exactly when the version is not
    [0x00010d00], or the [SPANNED] flag of the header is set, or the
    resource of the offset table cannot be opened: it has the [SPANNED]
    flag of a resource, or it is compressed and the compression bits of
    the header have no decompressor.  With the tag, the version and no
    [SPANNED] flag, construction is the reading of the resource table. *)
Theorem init_header_checks
    (DECOMPRESSOR_MAP : decompressor_map)
    (read_entries : stream -> result (list c_wim.RESHDR_DISK.t))
    (fh : BinaryIO) (header : c_wim.WIMHEADER_V1_PACKED.t) :
  (forall s, read_entries s <> Raise InvalidHeaderError) ->
  (forall s, read_entries s <> Raise NotImplementedError) ->
  let tag := c_wim.WIMHEADER_V1_PACKED.ImageTag header in
  let version := c_wim.WIMHEADER_V1_PACKED.Version header in
  let spanned :=
    Z.land (c_wim.WIMHEADER_V1_PACKED.Flags header) c_wim.HEADER_FLAG.SPANNED in
  let offset_table :=
    Resource.from_short_header (mkHandle fh header)
      (c_wim.WIMHEADER_V1_PACKED.OffsetTable header) in
  let construction := WIM.__init__ DECOMPRESSOR_MAP read_entries fh header in
  (construction = Raise InvalidHeaderError <-> tag <> c_wim.WIM_IMAGE_TAG)
  /\ (tag = c_wim.WIM_IMAGE_TAG ->
      (construction = Raise NotImplementedError
       <-> version <> c_wim.VERSION_DEFAULT
           \/ spanned <> 0
           \/ Resource.is_spanned offset_table = true
           \/ (Resource.is_compressed offset_table = true
               /\ DECOMPRESSOR_MAP
                    (Z.land (c_wim.WIMHEADER_V1_PACKED.Flags header)
                            0xFFFF0000) = None)))
  /\ (tag = c_wim.WIM_IMAGE_TAG ->
      version = c_wim.VERSION_DEFAULT ->
      spanned = 0 ->
      construction
      = bind (WIM._read_resource_table DECOMPRESSOR_MAP read_entries
                (mkHandle fh header))
             (fun '(table, images) => Ok (WIM.mk fh header table images))).
Proof.
  intros Hinvalid Hunsupported tag version spanned offset_table construction.
  split; [|split].
  - now apply init_InvalidHeaderError_iff.
  - intros Htag. unfold construction.
    rewrite (init_NotImplementedError_iff DECOMPRESSOR_MAP read_entries fh
               header Htag).
    rewrite (table_NotImplementedError_iff DECOMPRESSOR_MAP read_entries fh
               header Hunsupported).
    rewrite open_NotImplementedError_iff. reflexivity.
  - apply init_proceeds.
Qed.

(** On concrete headers: a wrong tag, a spanned archive, an old version,
    an offset table that is a spanned resource, and the header of the
    sample archive, whose construction returns the archive with its four
    resources. *)
Lemma init_header_checks_samples :
  let bad_tag :=
    c_wim.WIMHEADER_V1_PACKED.mk [x4d; x53; x57; x49; x4d; x00; x00; x01]
      c_wim.VERSION_DEFAULT 0 0x8000 Sample.offset_table in
  let spanned :=
    c_wim.WIMHEADER_V1_PACKED.mk c_wim.WIM_IMAGE_TAG c_wim.VERSION_DEFAULT
      (Z.lor 0x02 0x08) 0x8000 Sample.offset_table in
  let old :=
    c_wim.WIMHEADER_V1_PACKED.mk c_wim.WIM_IMAGE_TAG 0x00010c00
      0 0x8000 Sample.offset_table in
  let construct :=
    WIM.__init__ Sample.decompressors Sample.read_entries Sample.file in
  construct bad_tag = Raise InvalidHeaderError
  /\ construct spanned = Raise NotImplementedError
  /\ construct old = Raise NotImplementedError
  /\ construct Sample.spanned_table_header = Raise NotImplementedError
  /\ construct Sample.header = Ok Sample.wim.
Proof.
  intros bad_tag spanned old construct.
  assert (Hreads : forall e s, Sample.read_entries s <> Raise e)
    by discriminate.
  split; [|split; [|split; [|split]]].
  - destruct (init_header_checks Sample.decompressors Sample.read_entries
                Sample.file bad_tag (Hreads _) (Hreads _)) as (Hinvalid & _).
    apply Hinvalid. discriminate.
  - destruct (init_header_checks Sample.decompressors Sample.read_entries
                Sample.file spanned (Hreads _) (Hreads _))
      as (_ & Hunsupported & _).
    apply (Hunsupported eq_refl). right. left. discriminate.
  - destruct (init_header_checks Sample.decompressors Sample.read_entries
                Sample.file old (Hreads _) (Hreads _))
      as (_ & Hunsupported & _).
    apply (Hunsupported eq_refl). left. discriminate.
  - destruct (init_header_checks Sample.decompressors Sample.read_entries
                Sample.file Sample.spanned_table_header (Hreads _) (Hreads _))
      as (_ & Hunsupported & _).
    apply (Hunsupported eq_refl). right. right. left. reflexivity.
  - destruct (init_header_checks Sample.decompressors Sample.read_entries
                Sample.file Sample.header (Hreads _) (Hreads _))
      as (_ & _ & Hproceeds).
    etransitivity; [apply (Hproceeds eq_refl eq_refl eq_refl) | reflexivity].
Defined.

(** The claim as the specification states it: with the right tag,
    construction would fail with [NotImplementedError] only for a version
    other than [0x00010d00] or a header with the [SPANNED] flag.  A header
    with the tag, the version and no [SPANNED] flag whose offset table is
    a spanned resource fails with it all the same. *)
Lemma init_unsupported_counterexample :
  ~ (forall (DECOMPRESSOR_MAP : decompressor_map)
            (read_entries : stream -> result (list c_wim.RESHDR_DISK.t))
            (fh : BinaryIO) (header : c_wim.WIMHEADER_V1_PACKED.t),
       c_wim.WIMHEADER_V1_PACKED.ImageTag header = c_wim.WIM_IMAGE_TAG ->
       (WIM.__init__ DECOMPRESSOR_MAP read_entries fh header
        = Raise NotImplementedError
        <-> c_wim.WIMHEADER_V1_PACKED.Version header <> c_wim.VERSION_DEFAULT
            \/ Z.land (c_wim.WIMHEADER_V1_PACKED.Flags header)
                      c_wim.HEADER_FLAG.SPANNED <> 0)).
Proof.
  intros H.
  destruct (H Sample.decompressors Sample.read_entries Sample.file
              Sample.spanned_table_header eq_refl) as [Honly _].
  destruct (Honly eq_refl) as [Hv|Hs]; [now apply Hv | now apply Hs].
Qed.

(* ------------------------------------------------------------------ *)
(** ** Reads from a file object *)

Lemma len_nonneg {A} (l : list A) : 0 <= len l.
Proof. unfold len. lia. Qed.

Lemma len_firstn {A} (l : list A) (n : Z) :
  0 <= n <= len l -> len (firstn (Z.to_nat n) l) = n.
Proof. unfold len. intros H. rewrite length_firstn. lia. Qed.

Lemma len_skipn {A} (l : list A) (n : Z) :
  0 <= n <= len l -> len (skipn (Z.to_nat n) l) = len l - n.
Proof. unfold len. intros H. rewrite length_skipn. lia. Qed.

Lemma skipn_skipn_Z {A} (l : list A) (n m : Z) :
  0 <= n -> 0 <= m ->
  skipn (Z.to_nat m) (skipn (Z.to_nat n) l) = skipn (Z.to_nat (n + m)) l.
Proof.
  intros Hn Hm. rewrite skipn_skipn. f_equal. lia.
Qed.

(** A read that the file can serve in full returns the bytes asked for and
    moves the cursor by their number. *)
Lemma read_in_range (fh : BinaryIO) (n : Z) :
  0 <= pos fh -> 0 <= n -> pos fh + n <= len (data fh) ->
  read fh n
  = (firstn (Z.to_nat n) (skipn (Z.to_nat (pos fh)) (data fh)),
     mkIO (data fh) (pos fh + n)).
Proof.
  intros Hp Hn Hlen. unfold read.
  destruct (n <? 0) eqn:E; [apply Z.ltb_lt in E; lia|].
  rewrite len_firstn; [reflexivity|].
  rewrite len_skipn; lia.
Qed.

(* ------------------------------------------------------------------ *)
(** ** Security blocks *)

Lemma total_nonneg (lengths : list Z) :
  Forall (fun n => 0 <= n) lengths -> 0 <= Spec.total lengths.
Proof.
  induction 1 as [|n l Hn _ IH]; simpl; [lia|].
  unfold Spec.total in *. simpl. lia.
Qed.

(** The runs of the specification have the declared lengths when the
    buffer holds them all. *)
Lemma security_descriptors_lengths (lengths : list Z) :
  Forall (fun n => 0 <= n) lengths ->
  forall buf, Spec.total lengths <= len buf ->
  Forall2 (fun d n => len d = n) (Spec.security_descriptors lengths buf) lengths.
Proof.
  induction 1 as [|n l Hn Hl IH]; intros buf Hbuf; simpl; constructor.
  - apply len_firstn. pose proof (total_nonneg l Hl).
    unfold Spec.total in *. simpl in Hbuf. lia.
  - apply IH. pose proof (total_nonneg l Hl).
    unfold Spec.total in *. simpl in Hbuf. rewrite len_skipn; lia.
Qed.

(** The loop of the constructor: the runs of the specification without
    the empty ones, the cursor after the last run. *)
Lemma read_descriptors_spec (lengths : list Z) :
  Forall (fun n => 0 <= n) lengths ->
  forall fh,
    0 <= pos fh ->
    pos fh + Spec.total lengths <= len (data fh) ->
    SecurityBlock.read_descriptors lengths fh
    = (filter (fun d => negb (len d =? 0))
         (Spec.security_descriptors lengths
            (skipn (Z.to_nat (pos fh)) (data fh))),
       mkIO (data fh) (pos fh + Spec.total lengths)).
Proof.
  induction 1 as [|n l Hn Hl IH]; intros fh Hp Hlen.
  - simpl. unfold Spec.total. simpl. rewrite Z.add_0_r. now destruct fh.
  - pose proof (total_nonneg l Hl) as Ht.
    assert (Hcons : Spec.total (n :: l) = n + Spec.total l) by reflexivity.
    rewrite Hcons in *.
    cbn [SecurityBlock.read_descriptors Spec.security_descriptors filter].
    destruct (n =? 0) eqn:En.
    + apply Z.eqb_eq in En. subst n.
      rewrite IH by lia. reflexivity.
    + rewrite read_in_range by lia.
      rewrite IH by (cbn [pos data]; lia). cbn [pos data].
      rewrite len_firstn by (rewrite len_skipn; lia).
      rewrite En. cbn [negb].
      rewrite skipn_skipn_Z by lia.
      now rewrite Z.add_assoc.
Qed.

Lemma filter_all {A} (f : A -> bool) (l : list A) :
  Forall (fun x => f x = true) l -> filter f l = l.
Proof.
  induction 1 as [|x l Hx _ IH]; simpl; [reflexivity|]. now rewrite Hx, IH.
Qed.

Lemma security_descriptors_length (lengths : list Z) (buf : bytes) :
  List.length (Spec.security_descriptors lengths buf) = List.length lengths.
Proof.
  revert buf; induction lengths as [|n l IH]; intros buf; simpl; congruence.
Qed.

(** C9, as the reader has it.  For entry lengths that the stream holds in
    full, the descriptors of a security block are the runs of bytes the
    entry lengths lay out after the header, in order, without the runs of
    length zero (an entry of length zero gives no descriptor), and the
    cursor ends after the last run; when no entry length is zero there are
    exactly as many descriptors as entry lengths, descriptor [i] being run
    [i]. *)
Theorem descriptors_skip_empty_entries
    (header : c_wim.SECURITYBLOCK_DISK.t) (fh : BinaryIO) :
  let lengths := c_wim.SECURITYBLOCK_DISK.EntryLength header in
  let runs :=
    Spec.security_descriptors lengths (skipn (Z.to_nat (pos fh)) (data fh)) in
  Forall (fun n => 0 <= n) lengths ->
  0 <= pos fh ->
  pos fh + Spec.total lengths <= len (data fh) ->
  Forall2 (fun d n => len d = n) runs lengths
  /\ SecurityBlock.descriptors (fst (SecurityBlock.__init__ header fh))
     = filter (fun d => negb (len d =? 0)) runs
  /\ tell (snd (SecurityBlock.__init__ header fh))
     = pos fh + Spec.total lengths
  /\ (Forall (fun n => n <> 0) lengths ->
      SecurityBlock.descriptors (fst (SecurityBlock.__init__ header fh)) = runs
      /\ len (SecurityBlock.descriptors (fst (SecurityBlock.__init__ header fh)))
         = len lengths).
Proof.
  intros lengths runs Hnn Hp Hlen.
  assert (Hruns : Forall2 (fun d n => len d = n) runs lengths).
  { apply security_descriptors_lengths; [assumption|].
    rewrite len_skipn; pose proof (total_nonneg _ Hnn); lia. }
  unfold SecurityBlock.__init__. fold lengths.
  rewrite (read_descriptors_spec lengths Hnn fh Hp Hlen). fold runs. simpl.
  repeat apply conj; try reflexivity; try assumption.
  - intros Hnz. rewrite filter_all.
    + split; [reflexivity|]. unfold len, runs.
      now rewrite security_descriptors_length.
    + clear - Hruns Hnz. induction Hruns as [|d n ds ns Hd _ IH]; constructor.
      * inversion Hnz; subst. apply negb_true_iff, Z.eqb_neq. assumption.
      * inversion Hnz; subst. now apply IH.
Qed.

(** On the sample block, whose entry lengths are 0 and 2: one descriptor,
    the two bytes after the header. *)
Lemma descriptors_skip_empty_entries_sample :
  SecurityBlock.descriptors
    (fst (SecurityBlock.__init__ Sample.security_header Sample.security_fh))
  = [[x01; x02]]
  /\ tell (snd (SecurityBlock.__init__ Sample.security_header Sample.security_fh))
     = 18.
Proof.
  pose proof (descriptors_skip_empty_entries Sample.security_header
                Sample.security_fh) as H.
  simpl in H.
  destruct H as (_ & Hd & Hc & _).
  - repeat constructor; discriminate.
  - discriminate.
  - discriminate.
  - split; [exact Hd | exact Hc].
Defined.

(** C9, as the specification states it, fails on the sample block: the
    header declares two entries, of lengths 0 and 2, the stream holds both,
    and the block has one descriptor. *)
Lemma descriptors_count_counterexample :
  ~ (forall (header : c_wim.SECURITYBLOCK_DISK.t) (fh : BinaryIO),
       let lengths := c_wim.SECURITYBLOCK_DISK.EntryLength header in
       c_wim.SECURITYBLOCK_DISK.NumEntries header = len lengths ->
       Forall (fun n => 0 <= n) lengths ->
       0 <= pos fh ->
       pos fh + Spec.total lengths <= len (data fh) ->
       len (SecurityBlock.descriptors (fst (SecurityBlock.__init__ header fh)))
       = c_wim.SECURITYBLOCK_DISK.NumEntries header).
Proof.
  intros H.
  specialize (H Sample.security_header Sample.security_fh).
  simpl in H. discriminate H.
  - reflexivity.
  - repeat constructor; discriminate.
  - discriminate.
  - discriminate.
Qed.

(* ------------------------------------------------------------------ *)
(** ** Path lookup: [Image.get] *)

(** Replacing twice replaces nothing more, when the replacement is not
    itself replaced. *)
Lemma str_replace_idempotent (old new : ascii) (s : string) :
  Ascii.eqb new old = false ->
  str_replace old new (str_replace old new s) = str_replace old new s.
Proof.
  intros Hneq. induction s as [|c s IH]; simpl; [reflexivity|].
  rewrite IH. destruct (Ascii.eqb c old) eqn:Ec.
  - now rewrite Hneq.
  - now rewrite Ec.
Qed.

Lemma search_parts_replace (path : string) :
  Image.search_parts (str_replace "/" "\" path) = Image.search_parts path.
Proof.
  unfold Image.search_parts. now rewrite str_replace_idempotent.
Qed.

(** A walk through [pre ++ post] is the walk through [pre] followed, from
    where it arrives, by the walk through [post]. *)
Lemma traverse_app (fh : DirectoryEntry.metadata) (pre post : list string) :
  forall entry,
    Image.traverse fh (pre ++ post) entry
    = bind (Image.traverse fh pre entry) (Image.traverse fh post).
Proof.
  induction pre as [|part pre IH]; intros entry; simpl; [reflexivity|].
  destruct (String.eqb part EmptyString); [apply IH|].
  destruct (DirectoryEntry.iterdir fh entry) as [entries failure].
  destruct (Image.find_child entries failure part) as [child|e]; simpl;
    [apply IH | reflexivity].
Qed.

Lemma name_is_false (c : DirectoryEntry.t) (part : string) :
  Image.name_is c part = false <-> DirectoryEntry.name c <> Some part.
Proof.
  unfold Image.name_is. destruct (DirectoryEntry.name c) as [n|].
  - rewrite String.eqb_neq. split; congruence.
  - split; [discriminate | reflexivity].
Qed.

(** The [else] branch of the inner loop: with no child of that name, the
    exception is the one that ended the iteration, or [FileNotFoundError]
    when the iteration ended by itself. *)
Lemma find_child_no_match entries failure part :
  (forall c, In c entries -> DirectoryEntry.name c <> Some part) ->
  Image.find_child entries failure part
  = Raise (match failure with Some e => e | None => FileNotFoundError end).
Proof.
  induction entries as [|c entries IH]; intros Hno; simpl.
  - now destruct failure.
  - assert (Hc : Image.name_is c part = false)
      by (apply name_is_false, Hno; now left).
    rewrite Hc. apply IH. intros c' Hin. apply Hno. now right.
Qed.

Lemma find_child_raises entries failure part e :
  Image.find_child entries failure part = Raise e ->
  (forall c, In c entries -> DirectoryEntry.name c <> Some part)
  /\ e = match failure with Some e' => e' | None => FileNotFoundError end.
Proof.
  induction entries as [|c entries IH]; simpl.
  - intros H. split; [intros c []|]. destruct failure; congruence.
  - destruct (Image.name_is c part) eqn:Hc; [discriminate|].
    intros H. destruct (IH H) as [Hno He]. split; [|assumption].
    intros c' [<-|Hin]; [now apply name_is_false | now apply Hno].
Qed.

(** An entry that is not a directory stops the walk at the first part
    that is not empty. *)
Lemma traverse_not_a_directory fh parts entry :
  DirectoryEntry.is_dir entry = false ->
  (exists part, In part parts /\ part <> EmptyString) ->
  Image.traverse fh parts entry = Raise NotADirectoryError.
Proof.
  intros Hfile. induction parts as [|part parts IH]; intros [p [Hin Hp]].
  - destruct Hin.
  - simpl. destruct (String.eqb part EmptyString) eqn:Ep.
    + apply String.eqb_eq in Ep. apply IH. exists p. split; [|assumption].
      destruct Hin as [<-|]; [contradiction | assumption].
    + unfold DirectoryEntry.iterdir. rewrite Hfile. reflexivity.
Qed.

(** What [iterdir] can end with. *)
Lemma iterdir_failure fh entry entries failure :
  DirectoryEntry.iterdir fh entry = (entries, failure) ->
  failure <> Some FileNotFoundError
  /\ (failure = None -> DirectoryEntry.is_dir entry = true).
Proof.
  unfold DirectoryEntry.iterdir.
  destruct (DirectoryEntry.is_dir entry); simpl.
  - destruct (fh _) as [es [[]|]]; intros [= <- <-]; simpl;
      split; (discriminate || reflexivity).
  - intros [= <- <-]. split; discriminate.
Qed.

(** A walk that raises [FileNotFoundError] has reached a directory and
    found no child of the name of the next part. *)
Lemma traverse_file_not_found fh parts :
  forall entry,
    Image.traverse fh parts entry = Raise FileNotFoundError ->
    exists pre part post d entries,
      parts = pre ++ part :: post
      /\ Image.traverse fh pre entry = Ok d
      /\ part <> EmptyString
      /\ DirectoryEntry.is_dir d = true
      /\ DirectoryEntry.iterdir fh d = (entries, None)
      /\ (forall c, In c entries -> DirectoryEntry.name c <> Some part).
Proof.
  induction parts as [|part parts IH]; intros entry; simpl; [discriminate|].
  destruct (String.eqb part EmptyString) eqn:Ep.
  - intros H. destruct (IH _ H) as (pre & p & post & d & es & -> & Hw & Hrest).
    exists (part :: pre), p, post, d, es. split; [reflexivity|].
    split; [simpl; now rewrite Ep | exact Hrest].
  - apply String.eqb_neq in Ep.
    destruct (DirectoryEntry.iterdir fh entry) as [entries failure] eqn:Hit.
    destruct (Image.find_child entries failure part) as [child|e] eqn:Hfind; simpl.
    + intros H. destruct (IH _ H) as (pre & p & post & d & es & -> & Hw & Hrest).
      exists (part :: pre), p, post, d, es. split; [reflexivity|].
      split; [|exact Hrest]. simpl.
      apply String.eqb_neq in Ep. rewrite Ep, Hit, Hfind. exact Hw.
    + intros [= ->]. apply find_child_raises in Hfind as [Hno He].
      destruct (iterdir_failure _ _ _ _ Hit) as [Hnf Hdir].
      destruct failure as [e'|]; [congruence|].
      exists [], part, parts, entry, entries. repeat split; auto.
Qed.

(** C6.  [get] does not tell the two separators apart: a path and the
    path with every [/] replaced by a backslash give the same result, from
    the root or from a given entry; so do [dir/another.txt] and
    [dir\another.txt]; and where the walk has reached a directory whose
    iteration ends without a child of the name of the next part, [get]
    fails with [FileNotFoundError]. *)
Theorem get_separator_insensitive
    (image : Image.t) (path : string) (entry : option DirectoryEntry.t) :
  let start := match entry with Some e => e | None => Image.root image end in
  Image.get image path entry
  = Image.get image (str_replace "/" "\" path) entry
  /\ Image.get image "dir/another.txt" entry
     = Image.get image "dir\another.txt" entry
  /\ (forall pre part post d entries,
        Image.search_parts path = pre ++ part :: post ->
        Image.traverse (Image.fh image) pre start = Ok d ->
        part <> EmptyString ->
        DirectoryEntry.iterdir (Image.fh image) d = (entries, None) ->
        (forall c, In c entries -> DirectoryEntry.name c <> Some part) ->
        Image.get image path entry = Raise FileNotFoundError).
Proof.
  intros start. repeat apply conj.
  - unfold Image.get. now rewrite search_parts_replace.
  - reflexivity.
  - intros pre part post d entries Hparts Hwalk Hpart Hit Hno.
    unfold Image.get. fold start. rewrite Hparts, traverse_app, Hwalk. simpl.
    apply String.eqb_neq in Hpart. rewrite Hpart, Hit.
    now rewrite find_child_no_match.
Qed.

(** On the image of the tests: both spellings find [another.txt], and
    [dir] has no child [missing.txt]. *)
Lemma get_separator_insensitive_sample :
  Image.get Sample.image "dir/another.txt" None = Ok Sample.another_txt
  /\ Image.get Sample.image "dir\another.txt" None = Ok Sample.another_txt
  /\ Image.get Sample.image "dir/missing.txt" None = Raise FileNotFoundError.
Proof.
  pose proof (get_separator_insensitive Sample.image "dir/missing.txt" None)
    as (_ & _ & Hmissing).
  pose proof (get_separator_insensitive Sample.image "dir/another.txt" None)
    as (_ & Hsame & _).
  split; [reflexivity | split].
  - rewrite <- Hsame. reflexivity.
  - apply (Hmissing ["dir"%string] "missing.txt"%string [] Sample.dir
             [Sample.another_txt]); try reflexivity.
    + discriminate.
    + intros c [<-|[]]. discriminate.
Defined.

(** C10.  When the parts of a path split into a prefix that walks to an
    entry that is not a directory and a rest with a part that is not
    empty, [get] fails with [NotADirectoryError]; and when [get] fails
    with [FileNotFoundError], some prefix has walked to a directory whose
    iteration ended without a child of the name of the next part. *)
Theorem get_not_a_directory
    (image : Image.t) (path : string) (entry : option DirectoryEntry.t) :
  let start := match entry with Some e => e | None => Image.root image end in
  (forall pre post e,
      Image.search_parts path = pre ++ post ->
      Image.traverse (Image.fh image) pre start = Ok e ->
      DirectoryEntry.is_dir e = false ->
      (exists part, In part post /\ part <> EmptyString) ->
      Image.get image path entry = Raise NotADirectoryError)
  /\ (Image.get image path entry = Raise FileNotFoundError ->
      exists pre part post d entries,
        Image.search_parts path = pre ++ part :: post
        /\ Image.traverse (Image.fh image) pre start = Ok d
        /\ part <> EmptyString
        /\ DirectoryEntry.is_dir d = true
        /\ DirectoryEntry.iterdir (Image.fh image) d = (entries, None)
        /\ (forall c, In c entries -> DirectoryEntry.name c <> Some part)).
Proof.
  intros start. split.
  - intros pre post e Hparts Hwalk Hfile Hrest.
    unfold Image.get. fold start. rewrite Hparts, traverse_app, Hwalk. simpl.
    now apply traverse_not_a_directory.
  - unfold Image.get. fold start. apply traverse_file_not_found.
Qed.

(** On the image of the tests: below the file [file.txt] and below the
    mount point [link.txt] nothing is looked up. *)
Lemma get_not_a_directory_sample :
  Image.get Sample.image "file.txt/x" None = Raise NotADirectoryError
  /\ Image.get Sample.image "link.txt\another.txt" None
     = Raise NotADirectoryError
  /\ Image.get Sample.image "file.txt/" None = Ok Sample.file_txt.
Proof.
  split; [|split; [|reflexivity]].
  - apply (proj1 (get_not_a_directory Sample.image "file.txt/x" None)
             ["file.txt"%string] ["x"%string] Sample.file_txt);
      try reflexivity.
    exists "x"%string. split; [now left | discriminate].
  - apply (proj1 (get_not_a_directory Sample.image "link.txt\another.txt" None)
             ["link.txt"%string] ["another.txt"%string] Sample.link_txt);
      try reflexivity.
    exists "another.txt"%string. split; [now left | discriminate].
Defined.

(* ------------------------------------------------------------------ *)
(** ** The resource table and [DirectoryEntry.open] *)

Section Dict.

Context {V : Type}.

Lemma dict_set_in (d : dict (option bytes) V) k v k' v' :
  In (k', v') (dict_set opt_bytes_eqb d k v) ->
  (k' = k /\ v' = v) \/ In (k', v') d.
Proof.
  induction d as [|[k0 v0] d IH]; simpl.
  - intros [[= <- <-]|[]]. now left.
  - destruct (opt_bytes_eqb k0 k) eqn:E.
    + apply opt_bytes_eqb_eq in E. subst k0.
      intros [[= <- <-]|Hin]; [now left | right; now right].
    + intros [Heq|Hin]; [right; now left|].
      destruct (IH Hin) as [H|H]; [now left | right; now right].
Qed.

Lemma dict_set_keys (d : dict (option bytes) V) k v :
  map fst (dict_set opt_bytes_eqb d k v)
  = if existsb (fun k0 => opt_bytes_eqb k0 k) (map fst d)
    then map fst d else map fst d ++ [k].
Proof.
  induction d as [|[k0 v0] d IH]; simpl; [reflexivity|].
  destruct (opt_bytes_eqb k0 k) eqn:E; simpl; [reflexivity|].
  rewrite IH. now destruct (existsb _ _).
Qed.

Lemma dict_set_NoDup (d : dict (option bytes) V) k v :
  NoDup (map fst d) -> NoDup (map fst (dict_set opt_bytes_eqb d k v)).
Proof.
  intros Hnd. rewrite dict_set_keys.
  destruct (existsb _ _) eqn:E; [assumption|].
  apply NoDup_app; [assumption | repeat constructor; intros [] |].
  intros k0 Hin [<-|[]].
  assert (existsb (fun k1 => opt_bytes_eqb k1 k) (map fst d) = true).
  { apply existsb_exists. exists k. split; [assumption|].
    now apply opt_bytes_eqb_eq. }
  congruence.
Qed.

End Dict.

Lemma step_keyed_by_hash self acc reshdr :
  WIM.keyed_by_hash (fst acc) ->
  WIM.keyed_by_hash (fst (WIM._read_resource_table_step self acc reshdr)).
Proof.
  destruct acc as [table images]. intros [Hnd Hkeys]. simpl. split.
  - now apply dict_set_NoDup.
  - intros k r Hin. apply dict_set_in in Hin as [[-> ->]|Hin].
    + split; [reflexivity | discriminate].
    + now apply Hkeys.
Qed.

Lemma fold_keyed_by_hash self reshdrs :
  forall acc,
    WIM.keyed_by_hash (fst acc) ->
    WIM.keyed_by_hash
      (fst (fold_left (WIM._read_resource_table_step self) reshdrs acc)).
Proof.
  induction reshdrs as [|reshdr reshdrs IH]; intros acc Hacc; simpl;
    [assumption|].
  apply IH. now apply step_keyed_by_hash.
Qed.

(** The table of a constructed archive has that shape. *)
Lemma init_keyed_by_hash DECOMPRESSOR_MAP read_entries fh header wim :
  WIM.__init__ DECOMPRESSOR_MAP read_entries fh header = Ok wim ->
  WIM.keyed_by_hash (WIM._resource_table wim).
Proof.
  unfold WIM.__init__, WIM._read_resource_table.
  destruct (negb (bytes_eqb _ _)); [discriminate|].
  destruct (negb (_ =? c_wim.VERSION_DEFAULT)); [discriminate|].
  destruct (negb (_ =? 0)); [discriminate|].
  destruct (Resource.open _ _) as [s|]; simpl; [|discriminate].
  destruct (read_entries s) as [reshdrs|]; simpl; [|discriminate].
  pose proof (fold_keyed_by_hash (mkHandle fh header) reshdrs ([], [])) as Hfold.
  destruct (fold_left (WIM._read_resource_table_step _) reshdrs _)
    as [table images].
  intros [= <-]. simpl.
  apply Hfold. split; [constructor | intros k r []].
Qed.

Section Scan.

Variable DECOMPRESSOR_MAP : decompressor_map.

(** The scan fails when no resource has the hash looked for. *)
Lemma open_scan_none resources stream_hash :
  (forall r, In r resources -> Resource.hash r <> stream_hash) ->
  DirectoryEntry.open_scan DECOMPRESSOR_MAP resources stream_hash
  = Raise FileNotFoundError.
Proof.
  induction resources as [|r0 rs IH]; intros Hno; simpl; [reflexivity|].
  assert (E : opt_bytes_eqb (Resource.hash r0) stream_hash = false)
    by (apply opt_bytes_eqb_neq, Hno; now left).
  rewrite E. apply IH. intros r Hin. apply Hno. now right.
Qed.

(** In a table keyed by hash the scan opens the one resource that has the
    hash looked for. *)
Lemma open_scan_found (table : dict (option bytes) Resource.t) r :
  WIM.keyed_by_hash table ->
  In r (dict_values table) ->
  DirectoryEntry.open_scan DECOMPRESSOR_MAP (dict_values table) (Resource.hash r)
  = Resource.open DECOMPRESSOR_MAP r.
Proof.
  induction table as [|[k0 r0] table IH]; intros [Hnd Hkeys] Hin; [destruct Hin|].
  simpl in *. inversion Hnd as [|? ? Hfresh Hnd']; subst.
  destruct (opt_bytes_eqb (Resource.hash r0) (Resource.hash r)) eqn:E.
  - apply opt_bytes_eqb_eq in E.
    destruct Hin as [->|Hin]; [reflexivity|]. exfalso.
    apply in_map_iff in Hin as [[k r'] [Hr' Hin]]. simpl in Hr'. subst r'.
    destruct (Hkeys k0 r0 (or_introl eq_refl)) as [H0 _].
    destruct (Hkeys k r (or_intror Hin)) as [H1 _].
    apply Hfresh. apply in_map_iff. exists (k, r). split; [|assumption].
    simpl. congruence.
  - apply opt_bytes_eqb_neq in E.
    destruct Hin as [->|Hin]; [congruence|].
    apply IH; [|assumption]. split; [assumption|].
    intros k r' Hin'. apply Hkeys. now right.
Qed.

End Scan.

(** C5.  In an archive that construction has returned, opening the stream
    [name] of a directory entry fails with [FileNotFoundError] when [name]
    is not a key of the streams of the entry, and when it is a key but no
    resource of the archive has the hash found under it; when a resource
    of the archive has that hash, [open] returns that resource opened.  A
    missing key is not taken for a hash: no resource of the table has the
    hash [None] that the lookup of a missing key gives. *)
Theorem open_stream
    (DECOMPRESSOR_MAP : decompressor_map)
    (read_entries : stream -> result (list c_wim.RESHDR_DISK.t))
    (fh : BinaryIO) (header : c_wim.WIMHEADER_V1_PACKED.t) (wim : WIM.t)
    (e : DirectoryEntry.t) (name : string) :
  WIM.__init__ DECOMPRESSOR_MAP read_entries fh header = Ok wim ->
  let stream_hash := dict_get String.eqb (DirectoryEntry.streams e) name in
  (stream_hash = None ->
   DirectoryEntry.open DECOMPRESSOR_MAP wim e name = Raise FileNotFoundError)
  /\ (forall h,
        stream_hash = Some h ->
        (forall r, In r (WIM.resources wim) -> Resource.hash r <> Some h) ->
        DirectoryEntry.open DECOMPRESSOR_MAP wim e name
        = Raise FileNotFoundError)
  /\ (forall h r,
        stream_hash = Some h ->
        In r (WIM.resources wim) ->
        Resource.hash r = Some h ->
        DirectoryEntry.open DECOMPRESSOR_MAP wim e name
        = Resource.open DECOMPRESSOR_MAP r)
  /\ (forall r, In r (WIM.resources wim) -> Resource.hash r <> None).
Proof.
  intros Hinit stream_hash.
  pose proof (init_keyed_by_hash _ _ _ _ _ Hinit) as Hwf.
  assert (Hsome : forall r, In r (WIM.resources wim) -> Resource.hash r <> None).
  { intros r Hin. unfold WIM.resources, dict_values in Hin.
    apply in_map_iff in Hin as [[k r'] [Hr' Hin]]. simpl in Hr'. subst r'.
    destruct Hwf as [_ Hkeys]. destruct (Hkeys k r Hin) as [-> Hk]. exact Hk. }
  unfold DirectoryEntry.open. fold stream_hash.
  cbn [DirectoryEntry.builtin_hash_is_None].
  repeat apply conj.
  - intros ->. apply open_scan_none. exact Hsome.
  - intros h -> Hno. now apply open_scan_none.
  - intros h r -> Hin <-. now apply open_scan_found.
  - exact Hsome.
Qed.

(** On the archive of the samples: [ads.txt] has no stream [nope]; the
    hash of [link.txt] is the hash of no resource; the stream
    [spookystream] of [ads.txt] is the second resource of the table,
    opened. *)
Lemma open_stream_sample :
  WIM.__init__ Sample.decompressors Sample.read_entries Sample.file
    Sample.header = Ok Sample.wim
  /\ DirectoryEntry.open Sample.decompressors Sample.wim Sample.ads_txt "nope"
     = Raise FileNotFoundError
  /\ DirectoryEntry.open Sample.decompressors Sample.wim Sample.link_txt ""
     = Raise FileNotFoundError
  /\ DirectoryEntry.open Sample.decompressors Sample.wim Sample.ads_txt
       "spookystream"
     = Ok (RelativeStream Sample.file 238 38).
Proof.
  assert (Hinit : WIM.__init__ Sample.decompressors Sample.read_entries
                    Sample.file Sample.header = Ok Sample.wim) by reflexivity.
  split; [exact Hinit|]. repeat apply conj.
  - apply (open_stream _ _ _ _ _ Sample.ads_txt "nope" Hinit). reflexivity.
  - apply (proj1 (proj2 (open_stream _ _ _ _ _ Sample.link_txt "" Hinit))
             (Sample.hash_of x04)); [reflexivity|].
    intros r Hin. simpl in Hin.
    destruct Hin as [<-|[<-|[<-|[<-|[]]]]]; discriminate.
  - etransitivity.
    + apply (proj1 (proj2 (proj2
               (open_stream _ _ _ _ _ Sample.ads_txt "spookystream" Hinit)))
               (Sample.hash_of x02)
               (Resource.from_header (mkHandle Sample.file Sample.header)
                  (Sample.reshdr 238 38 (Sample.hash_of x02))));
        [reflexivity | simpl; tauto | reflexivity].
    + reflexivity.
Defined.

(* ------------------------------------------------------------------ *)
(** ** The chunk table of a compressed stream *)

Lemma int_from_bytes_little_bounds (b : bytes) :
  0 <= int_from_bytes_little b < 256 ^ len b.
Proof.
  unfold len. induction b as [|x b IH]; cbn [int_from_bytes_little List.length].
  - cbn. lia.
  - rewrite Nat2Z.inj_succ, Z.pow_succ_r by lia.
    pose proof (Byte.to_N_bounded x) as Hx. lia.
Qed.


Lemma unpack_items_length (width count : nat) (buf : bytes) :
  List.length (unpack_items width count buf) = count.
Proof.
  revert buf; induction count as [|c IH]; intros buf; simpl; congruence.
Qed.

Lemma unpack_items_nth (width count : nat) :
  forall (buf : bytes) (i : nat),
    (i < count)%nat ->
    nth_error (unpack_items width count buf) i
    = Some (int_from_bytes_little (firstn width (skipn (i * width) buf))).
Proof.
  induction count as [|c IH]; intros buf i Hi; [lia|].
  destruct i as [|i]; simpl; [reflexivity|].
  rewrite IH by lia. rewrite skipn_skipn. do 4 f_equal. lia.
Qed.

(** A slice within the bounds of a list, by [firstn] and [skipn]. *)
Lemma slice_in_range {A} (l : list A) (i j : Z) :
  0 <= i <= j -> j <= len l ->
  slice l i j = firstn (Z.to_nat (j - i)) (skipn (Z.to_nat i) l).
Proof.
  intros Hij Hj. unfold slice, slice_bound.
  destruct (i <? 0) eqn:Ei; [apply Z.ltb_lt in Ei; lia|].
  destruct (j <? 0) eqn:Ej; [apply Z.ltb_lt in Ej; lia|].
  now rewrite !Z.min_l by lia.
Qed.

(** Entry [i] of a table of [count] entries of [width] bytes read at
    [offset]: the bytes of the file from [offset + i * width]. *)
Lemma table_entry (contents : bytes) (offset count width i : Z) :
  0 <= offset -> 0 < width -> 0 <= i < count ->
  offset + count * width <= len contents ->
  firstn (Z.to_nat width)
    (skipn (Z.to_nat i * Z.to_nat width)
       (firstn (Z.to_nat (count * width)) (skipn (Z.to_nat offset) contents)))
  = slice contents (offset + i * width) (offset + (i + 1) * width).
Proof.
  intros Ho Hw Hi Hlen.
  assert (H1 : 0 <= i * width) by (apply Z.mul_nonneg_nonneg; lia).
  assert (H2 : (i + 1) * width = i * width + width) by ring.
  assert (H3 : (i + 1) * width <= count * width)
    by (apply Z.mul_le_mono_nonneg_r; lia).
  rewrite slice_in_range by lia.
  rewrite skipn_firstn_comm, firstn_firstn, skipn_skipn.
  rewrite <- Z2Nat.inj_mul by lia.
  f_equal; [|f_equal]; lia.
Qed.

Lemma num_chunks_is_ceiling (original_size N : Z) :
  N * DEFAULT_CHUNK_SIZE < original_size <= (N + 1) * DEFAULT_CHUNK_SIZE ->
  (original_size + (32 * 1024) - 1) / (32 * 1024) - 1 = N.
Proof.
  unfold DEFAULT_CHUNK_SIZE. intros H.
  assert ((original_size + 32 * 1024 - 1) / (32 * 1024) = N + 1); [|lia].
  symmetry. apply (Z.div_unique_pos _ _ _ (original_size - N * 32768 - 1)); lia.
Qed.

(** What the constructor reads: the [N] entries that chunks of 32 KiB
    give. *)
Lemma init_reads_the_table
    (fh : BinaryIO) (offset compressed_size original_size : Z)
    (decompressor : bytes -> bytes) (N : Z) :
  let width := if original_size <=? 0xFFFFFFFF then 4 else 8 in
  1 <= original_size ->
  N * DEFAULT_CHUNK_SIZE < original_size <= (N + 1) * DEFAULT_CHUNK_SIZE ->
  0 <= offset ->
  offset + N * width <= len (data fh) ->
  exists s,
    CompressedStream.__init__ fh offset compressed_size original_size
      decompressor = Ok s
    /\ tell (CompressedStream.fh s) = offset + N * width
    /\ (N = 0 -> CompressedStream._chunks s = [0])
    /\ (0 < N ->
        len (CompressedStream._chunks s) = N
        /\ forall i, 0 <= i < N ->
             getitem (CompressedStream._chunks s) i
             = Ok (int_from_bytes_little
                     (slice (data fh) (offset + i * width)
                            (offset + (i + 1) * width)))).
Proof.
  intros width Hsize HN Hoff Hlen.
  assert (Hw : 0 < width) by (unfold width; destruct (_ <=? _); lia).
  assert (HN0 : 0 <= N) by (unfold DEFAULT_CHUNK_SIZE in HN; lia).
  unfold CompressedStream.__init__.
  rewrite (num_chunks_is_ceiling _ _ HN).
  destruct (N =? 0) eqn:EN.
  - apply Z.eqb_eq in EN. subst N. eexists. split; [reflexivity|].
    simpl. repeat split; try lia.
  - apply Z.eqb_neq in EN.
    assert (Hwidth : (if original_size >? 4294967295 then 8 else 4) = width).
    { unfold width. rewrite Z.gtb_ltb, Z.ltb_antisym.
      now destruct (original_size <=? 4294967295). }
    rewrite Hwidth. unfold struct_calcsize at 1.
    destruct (N <? 0) eqn:EN0; [apply Z.ltb_lt in EN0; lia|].
    cbn [bind]. rewrite read_in_range by (cbn [seek pos data]; nia).
    cbn [seek pos data]. unfold struct_unpack, struct_calcsize.
    rewrite EN0. cbn [bind].
    rewrite len_firstn by (rewrite len_skipn; nia).
    rewrite Z.eqb_refl. eexists. split; [reflexivity|].
    cbn [CompressedStream.fh CompressedStream._chunks tell pos].
    repeat split; try lia.
    + unfold len. rewrite unpack_items_length. lia.
    + intros i Hi. unfold getitem.
      destruct (i <? 0) eqn:Ei; [apply Z.ltb_lt in Ei; lia|]. rewrite Ei.
      rewrite unpack_items_nth by lia.
      now rewrite table_entry.
Qed.



(** The constructor on the stream of three stored chunks. *)
Lemma init_stream3 :
  CompressedStream.__init__ Sample.file3 0 98312 98304 Sample.stored
  = Ok Sample.stream3.
Proof. lazy -[Sample.content3]. reflexivity. Qed.


(* ------------------------------------------------------------------ *)
(** ** Reads from a compressed stream *)

Section Read.

Variable self : CompressedStream.t.

Let num_chunks := len (CompressedStream._chunks self).

(** Fuel beyond [num_chunks - chunk] is never used: the loop has left by
    then, and the result is the same. *)
Lemma _read_loop_fuel (fuel : nat) :
  forall chunk offset_in_chunk length extra,
    (Z.to_nat (num_chunks - chunk) <= fuel)%nat ->
    CompressedStream._read_loop self (fuel + extra) chunk offset_in_chunk length
    = CompressedStream._read_loop self fuel chunk offset_in_chunk length.
Proof.
  induction fuel as [|fuel IH]; intros chunk oic length extra Hfuel.
  - destruct extra as [|extra]; [reflexivity|].
    cbn [Nat.add CompressedStream._read_loop].
    destruct (length =? 0); [reflexivity|].
    fold num_chunks.
    destruct (chunk >=? num_chunks) eqn:E; [reflexivity|].
    rewrite Z.geb_leb in E. apply Z.leb_gt in E. lia.
  - cbn [Nat.add CompressedStream._read_loop].
    destruct (length =? 0); [reflexivity|].
    fold num_chunks.
    destruct (chunk >=? num_chunks) eqn:E; [reflexivity|].
    destruct (getitem (CompressedStream._chunks self) chunk) as [c|];
      [|reflexivity].
    cbn [bind].
    destruct (chunk <? num_chunks - 1).
    + destruct (getitem (CompressedStream._chunks self) (chunk + 1)) as [n|];
        [|reflexivity].
      cbn [bind]. rewrite IH by lia. reflexivity.
    + cbn [bind]. rewrite IH by lia. reflexivity.
Qed.

(** Each turn of the loop takes one chunk: a read makes at most as many
    requests as there are entries in [_chunks] from the first chunk on. *)
Lemma _read_loop_count (fuel : nat) :
  forall chunk offset_in_chunk length requests,
    CompressedStream._read_loop self fuel chunk offset_in_chunk length
    = Ok requests ->
    (List.length requests <= fuel)%nat.
Proof.
  assert (Hnil : forall n, (@List.length CompressedStream.request [] <= n)%nat)
    by (intros n; cbn [List.length]; lia).
  induction fuel as [|fuel IH]; intros chunk oic length requests;
    cbn [CompressedStream._read_loop].
  - intros [= <-]. apply Hnil.
  - destruct (length =? 0); [intros [= <-]; apply Hnil|].
    fold num_chunks.
    destruct (chunk >=? num_chunks); [intros [= <-]; apply Hnil|].
    destruct (getitem (CompressedStream._chunks self) chunk) as [c|];
      [|discriminate].
    cbn [bind].
    destruct (chunk <? num_chunks - 1).
    + destruct (getitem (CompressedStream._chunks self) (chunk + 1)) as [n|];
        [|discriminate].
      cbn [bind].
      destruct (CompressedStream._read_loop self fuel (chunk + 1) oic _)
        as [rest|] eqn:E; [|discriminate].
      cbn [bind]. intros [= <-]. apply IH in E. cbn [List.length]. lia.
    + cbn [bind].
      destruct (CompressedStream._read_loop self fuel (chunk + 1) oic _)
        as [rest|] eqn:E; [|discriminate].
      cbn [bind]. intros [= <-]. apply IH in E. cbn [List.length]. lia.
Qed.

Lemma _read_requests_count (offset length : Z) requests :
  0 <= offset ->
  CompressedStream._read_requests self offset length = Ok requests ->
  len requests <= num_chunks.
Proof.
  intros Hoff H. apply _read_loop_count in H.
  assert (0 <= offset / DEFAULT_CHUNK_SIZE)
    by (apply Z.div_pos; unfold DEFAULT_CHUNK_SIZE; lia).
  fold num_chunks in H. unfold len in *. lia.
Qed.

Lemma getitem_in_range {A} (l : list A) (i : Z) :
  0 <= i < len l -> exists x, getitem l i = Ok x.
Proof.
  intros Hi. unfold getitem.
  destruct (i <? 0) eqn:E; [apply Z.ltb_lt in E; lia|]. rewrite E.
  destruct (nth_error l (Z.to_nat i)) as [x|] eqn:Hnth; [eauto|].
  apply nth_error_None in Hnth. unfold len in Hi. lia.
Qed.

(** From a chunk that is not negative the loop raises nothing. *)
Lemma _read_loop_returns (fuel : nat) :
  forall chunk offset_in_chunk length,
    0 <= chunk ->
    exists requests,
      CompressedStream._read_loop self fuel chunk offset_in_chunk length
      = Ok requests.
Proof.
  induction fuel as [|fuel IH]; intros chunk oic length Hchunk;
    cbn [CompressedStream._read_loop]; [eauto|].
  destruct (length =? 0); [eauto|].
  fold num_chunks.
  destruct (chunk >=? num_chunks) eqn:E; [eauto|].
  rewrite Z.geb_leb in E. apply Z.leb_gt in E.
  destruct (getitem_in_range (CompressedStream._chunks self) chunk) as [c ->];
    [fold num_chunks; lia|]. cbn [bind].
  destruct (chunk <? num_chunks - 1) eqn:El.
  - apply Z.ltb_lt in El.
    destruct (getitem_in_range (CompressedStream._chunks self) (chunk + 1))
      as [n ->]; [fold num_chunks; lia|]. cbn [bind].
    destruct (IH (chunk + 1) oic
                (length - Z.min (DEFAULT_CHUNK_SIZE - oic) length)) as [r ->];
      [lia|]. cbn [bind]. eauto.
  - cbn [bind].
    destruct (IH (chunk + 1) oic
                (length
                 - Z.min (CompressedStream.original_size self
                          - chunk * DEFAULT_CHUNK_SIZE - oic) length))
      as [r ->]; [lia|]. cbn [bind]. eauto.
Qed.


(** The first request of a read from the start of the stream is made at
    the first entry of [_chunks]. *)
Lemma _read_requests_first (length first : Z) (others : list Z) :
  CompressedStream._chunks self = first :: others ->
  length <> 0 ->
  exists size hi rest,
    CompressedStream._read_requests self 0 length
    = Ok (CompressedStream.mkRequest first size 0 hi :: rest).
Proof.
  intros Hchunks Hlen.
  assert (Hn : num_chunks = 1 + len others).
  { unfold num_chunks, len. rewrite Hchunks. cbn [List.length]. lia. }
  pose proof (len_nonneg others) as Hothers.
  unfold CompressedStream._read_requests.
  change (0 / DEFAULT_CHUNK_SIZE) with 0.
  change (0 mod DEFAULT_CHUNK_SIZE) with 0.
  fold num_chunks.
  destruct (Z.to_nat (num_chunks - 0)) as [|fuel] eqn:Hfuel; [lia|].
  cbn [CompressedStream._read_loop].
  apply Z.eqb_neq in Hlen. rewrite Hlen. fold num_chunks.
  destruct (0 >=? num_chunks) eqn:E.
  { rewrite Z.geb_leb in E. apply Z.leb_le in E. lia. }
  replace (getitem (CompressedStream._chunks self) 0) with (Ok first)
    by (rewrite Hchunks; reflexivity).
  cbn [bind].
  destruct (0 <? num_chunks - 1) eqn:El.
  - apply Z.ltb_lt in El.
    destruct (getitem_in_range (CompressedStream._chunks self) (0 + 1))
      as [n ->]; [fold num_chunks; lia|]. cbn [bind].
    destruct (_read_loop_returns fuel (0 + 1) 0
                (length - Z.min (DEFAULT_CHUNK_SIZE - 0) length)) as [r ->];
      [lia|]. cbn [bind]. eauto.
  - cbn [bind].
    destruct (_read_loop_returns fuel (0 + 1) 0
                (length
                 - Z.min (CompressedStream.original_size self
                          - 0 * DEFAULT_CHUNK_SIZE - 0) length)) as [r ->];
      [lia|]. cbn [bind]. eauto.
Qed.

End Read.

(** A read at the start of chunk [num_chunks] or beyond requests
    nothing. *)
Lemma _read_requests_beyond (self : CompressedStream.t) (chunk length : Z) :
  len (CompressedStream._chunks self) <= chunk ->
  CompressedStream._read_requests self (chunk * DEFAULT_CHUNK_SIZE) length = Ok [].
Proof.
  intros Hchunk. unfold CompressedStream._read_requests.
  rewrite Z.div_mul by (unfold DEFAULT_CHUNK_SIZE; lia).
  replace (Z.to_nat (len (CompressedStream._chunks self) - chunk)) with O by lia.
  reflexivity.
Qed.

(** C2, on the reader.  For a stream of more than one chunk
    ([N = ceil(original_size / 32768) - 1 > 0] table entries, so [N + 1]
    chunks) the constructor returns a stream on which every read makes at
    most [N] requests; a read from offset 0 makes its first request, for
    chunk 0, at the compressed offset of table entry 0, which is where
    chunk 1 starts, and not at compressed offset 0; and a read at
    [N * 32768], the start of the last chunk, requests nothing. *)
Theorem read_requests_follow_the_table
    (fh : BinaryIO) (offset compressed_size original_size : Z)
    (decompressor : bytes -> bytes) (N : Z) :
  let width := if original_size <=? 0xFFFFFFFF then 4 else 8 in
  0 < N ->
  N * DEFAULT_CHUNK_SIZE < original_size <= (N + 1) * DEFAULT_CHUNK_SIZE ->
  0 <= offset ->
  offset + N * width <= len (data fh) ->
  exists s,
    CompressedStream.__init__ fh offset compressed_size original_size
      decompressor = Ok s
    /\ (forall off length requests,
          0 <= off ->
          CompressedStream._read_requests s off length = Ok requests ->
          len requests <= N)
    /\ (forall length, length <> 0 ->
          exists size hi rest,
            CompressedStream._read_requests s 0 length
            = Ok (CompressedStream.mkRequest
                    (int_from_bytes_little
                       (slice (data fh) offset (offset + width)))
                    size 0 hi :: rest))
    /\ (forall length,
          CompressedStream._read_requests s (N * DEFAULT_CHUNK_SIZE) length
          = Ok []).
Proof.
  intros width HN Hsize Hoff Hlen.
  destruct (init_reads_the_table fh offset compressed_size original_size
              decompressor N) as (s & Hs & _ & _ & Htable); try assumption.
  { unfold DEFAULT_CHUNK_SIZE in Hsize. lia. }
  destruct (Htable HN) as [Hcount Hentries].
  exists s. split; [exact Hs|]. repeat apply conj.
  - intros off length requests Hoff' Hreq. rewrite <- Hcount.
    now apply (_read_requests_count s off length).
  - intros length Hlength.
    specialize (Hentries 0 ltac:(lia)).
    rewrite Z.mul_0_l, Z.add_0_r, Z.add_0_l, Z.mul_1_l in Hentries.
    fold width in Hentries.
    destruct (CompressedStream._chunks s) as [|first others] eqn:Hchunks.
    + unfold len in Hcount. simpl in Hcount. lia.
    + unfold getitem in Hentries. simpl in Hentries.
      injection Hentries as <-.
      now apply (_read_requests_first s length first others).
  - intros length. apply _read_requests_beyond. lia.
Qed.

(** On the stream of three stored chunks: the table entries are 32768 and
    65536; the read of the whole stream makes two requests, at the table
    entries of chunk 1 and of chunk 2 (counted from the start of the
    resource, so each begins 8 bytes before its chunk), and a read in the
    third chunk makes none. *)
Lemma read_requests_follow_the_table_sample :
  (exists s,
     CompressedStream.__init__ Sample.file3 0 98312 98304 Sample.stored = Ok s
     /\ (forall off length requests,
           0 <= off ->
           CompressedStream._read_requests s off length = Ok requests ->
           len requests <= 2)
     /\ (forall length, length <> 0 ->
           exists size hi rest,
             CompressedStream._read_requests s 0 length
             = Ok (CompressedStream.mkRequest
                     (int_from_bytes_little
                        (slice (data Sample.file3) 0 (0 + 4)))
                     size 0 hi :: rest))
     /\ (forall length,
           CompressedStream._read_requests s (2 * DEFAULT_CHUNK_SIZE) length
           = Ok []))
  /\ CompressedStream._read_requests Sample.stream3 0 98304
     = Ok [CompressedStream.mkRequest 32768 32768 0 32768;
           CompressedStream.mkRequest 65536 32776 0 65536]
  /\ CompressedStream._read_requests Sample.stream3 65536 32768 = Ok [].
Proof.
  split; [|split; reflexivity].
  apply (read_requests_follow_the_table Sample.file3 0 98312 98304
           Sample.stored 2).
  - lia.
  - unfold DEFAULT_CHUNK_SIZE. lia.
  - lia.
  - vm_compute. intros H. discriminate H.
Defined.

(** C1, on the reader.  On the stream of three stored chunks both the read
    of the whole stream and the read of 32768 bytes at offset 8192 return;
    the second is not the slice [8192, 40960) of the first.  The two agree
    up to the end of the first chunk read, 24576 bytes; from there the
    ranged read goes on at offset 8192 of the next chunk (a byte of block
    8 of the content), where the whole read goes on at its offset 0 (a
    byte of block 7). *)
Theorem read_range_is_not_a_slice :
  CompressedStream.__init__ Sample.file3 0 98312 98304 Sample.stored
  = Ok Sample.stream3
  /\ CompressedStream._read_requests Sample.stream3 8192 32768
     = Ok [CompressedStream.mkRequest 32768 32768 8192 32768;
           CompressedStream.mkRequest 65536 32776 8192 16384]
  /\ bind (CompressedStream._read Sample.stream3 0 98304) (fun full =>
     bind (CompressedStream._read Sample.stream3 8192 32768) (fun part =>
     let sliced := slice full 8192 (8192 + 32768) in
     Ok (len part, len sliced, bytes_eqb part sliced,
         bytes_eqb (slice part 0 24576) (slice sliced 0 24576),
         slice part 24576 24577, slice sliced 24576 24577)))
     = Ok (32768, 32768, false, true, [x08], [x07]).
Proof.
  split; [exact init_stream3|]. split; [reflexivity|].
  vm_compute. reflexivity.
Qed.

(** *** Streams of a single chunk

    Where the stream is one chunk (at most 32 KiB of content, an empty
    table), every range read is the slice of the whole read. *)



Section SingleChunk.

Variable self : CompressedStream.t.
Variable chunk_offset : Z.
Hypothesis one_chunk : CompressedStream._chunks self = [chunk_offset].
Hypothesis small :
  CompressedStream.original_size self <= DEFAULT_CHUNK_SIZE.

Let buf :=
  CompressedStream._read_chunk self chunk_offset
    (CompressedStream.compressed_size self - chunk_offset).



End SingleChunk.

(* ================================================================== *)
(** * Further properties of the reader *)

(* ------------------------------------------------------------------ *)
(** ** Opening a resource *)

(** X1.  [Resource.open] fails with [NotImplementedError] exactly when the
    resource is spanned, or is compressed while the compression bits of
    the header flags have no decompressor; it tests for the [SPANNED]
    flag first, so a spanned resource fails whatever its compression; and
    a resource that is neither spanned nor compressed opens as the window
    [offset, offset + size) of the archive file, whatever the header
    says. *)
Theorem resource_open_outcomes
    (DECOMPRESSOR_MAP : decompressor_map) (resource : Resource.t) :
  let key :=
    Z.land (c_wim.WIMHEADER_V1_PACKED.Flags
              (handle_header (Resource.wim resource))) 0xFFFF0000 in
  (Resource.open DECOMPRESSOR_MAP resource = Raise NotImplementedError
   <-> Resource.is_spanned resource = true
       \/ (Resource.is_compressed resource = true
           /\ DECOMPRESSOR_MAP key = None))
  /\ (Resource.is_spanned resource = true ->
      forall other : decompressor_map,
        Resource.open other resource = Raise NotImplementedError)
  /\ (Resource.is_spanned resource = false ->
      Resource.is_compressed resource = false ->
      Resource.open DECOMPRESSOR_MAP resource
      = Ok (RelativeStream (handle_fh (Resource.wim resource))
              (Resource.offset resource) (Resource.size resource))).
Proof.
  intros key. split; [apply open_NotImplementedError_iff|]. split.
  - intros Hspanned other. apply open_NotImplementedError_iff. now left.
  - unfold Resource.open. now intros -> ->.
Qed.

(* ------------------------------------------------------------------ *)
(** ** Constructing a compressed stream *)





(* ------------------------------------------------------------------ *)
(** ** What a constructed archive holds *)

(** A constructed archive has read its table: the offset-table resource
    has opened, its entries have been read, and the table and the images
    are what the loop makes of them. *)
Lemma init_reads_entries DECOMPRESSOR_MAP read_entries fh header wim :
  WIM.__init__ DECOMPRESSOR_MAP read_entries fh header = Ok wim ->
  c_wim.WIMHEADER_V1_PACKED.ImageTag header = c_wim.WIM_IMAGE_TAG
  /\ c_wim.WIMHEADER_V1_PACKED.Version header = c_wim.VERSION_DEFAULT
  /\ Z.land (c_wim.WIMHEADER_V1_PACKED.Flags header) c_wim.HEADER_FLAG.SPANNED = 0
  /\ exists s reshdrs,
       Resource.open DECOMPRESSOR_MAP
         (Resource.from_short_header (mkHandle fh header)
            (c_wim.WIMHEADER_V1_PACKED.OffsetTable header)) = Ok s
       /\ read_entries s = Ok reshdrs
       /\ wim = WIM.mk fh header
                  (fst (fold_left
                          (WIM._read_resource_table_step (mkHandle fh header))
                          reshdrs ([], [])))
                  (snd (fold_left
                          (WIM._read_resource_table_step (mkHandle fh header))
                          reshdrs ([], []))).
Proof.
  unfold WIM.__init__, WIM._read_resource_table.
  destruct (bytes_eqb _ _) eqn:Etag; [|discriminate].
  destruct (_ =? c_wim.VERSION_DEFAULT) eqn:Ev; [|discriminate].
  destruct (_ =? 0) eqn:Es; [|discriminate]. cbn [negb].
  apply bytes_eqb_eq in Etag. apply Z.eqb_eq in Ev, Es.
  destruct (Resource.open _ _) as [s|] eqn:Hopen; cbn [bind]; [|discriminate].
  destruct (read_entries s) as [reshdrs|] eqn:Hread; cbn [bind]; [|discriminate].
  destruct (fold_left (WIM._read_resource_table_step _) reshdrs _)
    as [table images] eqn:Hfold.
  intros [= <-]. repeat split; try assumption.
  exists s, reshdrs. rewrite Hfold. repeat split; assumption.
Qed.

(** X3.  An archive that construction has returned keeps the file object
    and the header it was given, and its header has passed the checks: the
    image tag is [MSWIM\0\0\0], the version is [0x00010d00], and the
    [SPANNED] flag is not set. *)
Theorem constructed_archive_header
    (DECOMPRESSOR_MAP : decompressor_map)
    (read_entries : stream -> result (list c_wim.RESHDR_DISK.t))
    (fh : BinaryIO) (header : c_wim.WIMHEADER_V1_PACKED.t) (wim : WIM.t) :
  WIM.__init__ DECOMPRESSOR_MAP read_entries fh header = Ok wim ->
  WIM.fh wim = fh
  /\ WIM.header wim = header
  /\ c_wim.WIMHEADER_V1_PACKED.ImageTag (WIM.header wim) = c_wim.WIM_IMAGE_TAG
  /\ c_wim.WIMHEADER_V1_PACKED.Version (WIM.header wim) = c_wim.VERSION_DEFAULT
  /\ Z.land (c_wim.WIMHEADER_V1_PACKED.Flags (WIM.header wim))
            c_wim.HEADER_FLAG.SPANNED = 0.
Proof.
  intros Hinit.
  destruct (init_reads_entries _ _ _ _ _ Hinit)
    as (Htag & Hv & Hs & s & reshdrs & _ & _ & ->).
  cbn [WIM.fh WIM.header]. repeat split; assumption.
Qed.

Lemma constructed_archive_header_sample :
  WIM.__init__ Sample.decompressors Sample.read_entries Sample.file
    Sample.header = Ok Sample.wim
  /\ WIM.fh Sample.wim = Sample.file
  /\ c_wim.WIMHEADER_V1_PACKED.Version (WIM.header Sample.wim) = 0x00010d00.
Proof.
  assert (Hinit : WIM.__init__ Sample.decompressors Sample.read_entries
                    Sample.file Sample.header = Ok Sample.wim) by reflexivity.
  split; [exact Hinit|].
  destruct (constructed_archive_header _ _ _ _ _ Hinit) as (Hfh & _ & _ & Hv & _).
  split; [exact Hfh | exact Hv].
Defined.

(* ------------------------------------------------------------------ *)
(** ** Dictionaries filled by a loop *)

Section DictFill.

Context {K V X : Type}.
Variable eqb : K -> K -> bool.
Hypothesis eqb_eq : forall a b, eqb a b = true <-> a = b.
Variable key : X -> K.
Variable value : X -> V.

Lemma dict_get_set (d : dict K V) k v k' :
  dict_get eqb (dict_set eqb d k v) k'
  = if eqb k k' then Some v else dict_get eqb d k'.
Proof.
  induction d as [|[k0 v0] d IH]; cbn [dict_set dict_get]; [reflexivity|].
  destruct (eqb k0 k) eqn:E0.
  - apply eqb_eq in E0. subst k0. cbn [dict_get]. now destruct (eqb k k').
  - cbn [dict_get]. destruct (eqb k0 k') eqn:E1; [|exact IH].
    apply eqb_eq in E1. subst k0.
    destruct (eqb k k') eqn:E2; [|reflexivity].
    apply eqb_eq in E2. subst k'.
    assert (eqb k k = true) by now apply eqb_eq. congruence.
Qed.

(** After [d[key(x)] = value(x)] for every [x] of a list in turn, a key
    holds the value of the last [x] that has it. *)
Lemma dict_get_fill (xs : list X) :
  forall (d : dict K V) k,
    dict_get eqb (fold_left (fun d x => dict_set eqb d (key x) (value x)) xs d) k
    = match find (fun x => eqb (key x) k) (rev xs) with
      | Some x => Some (value x)
      | None => dict_get eqb d k
      end.
Proof.
  induction xs as [|x xs IH]; intros d k; cbn [fold_left rev find];
    [reflexivity|].
  rewrite IH, dict_get_set.
  assert (Hfind : forall l,
             find (fun x0 => eqb (key x0) k) (l ++ [x])
             = match find (fun x0 => eqb (key x0) k) l with
               | Some y => Some y
               | None => if eqb (key x) k then Some x else None
               end).
  { induction l as [|y l IHl]; cbn [app find]; [reflexivity|].
    destruct (eqb (key y) k); [reflexivity | exact IHl]. }
  rewrite Hfind.
  destruct (find _ (rev xs)); [reflexivity|]. now destruct (eqb (key x) k).
Qed.

End DictFill.

(* ------------------------------------------------------------------ *)
(** ** The resource table and the images of an archive *)

Section Table.

Variable self : wim_handle.

Let step := WIM._read_resource_table_step self.

(** The table of the loop is the dictionary filled with the resources
    under their hashes; the images are the metadata resources, in the
    order of the entries. *)
Lemma fold_table (reshdrs : list c_wim.RESHDR_DISK.t) :
  forall acc,
    fold_left step reshdrs acc
    = (fold_left (fun d r =>
                    dict_set opt_bytes_eqb d
                      (Some (c_wim.RESHDR_DISK.Hash r))
                      (Resource.from_header self r))
                 reshdrs (fst acc),
       snd acc
       ++ filter Resource.is_metadata (map (Resource.from_header self) reshdrs)).
Proof.
  induction reshdrs as [|r reshdrs IH]; intros [table images];
    cbn [fold_left map filter fst snd].
  - now rewrite app_nil_r.
  - rewrite IH. unfold step, WIM._read_resource_table_step.
    change (Resource.hash (Resource.from_header self r))
      with (Some (c_wim.RESHDR_DISK.Hash r)).
    destruct (Resource.is_metadata (Resource.from_header self r));
      cbn [fst snd]; [|reflexivity].
    now rewrite <- app_assoc.
Qed.

End Table.

(** What a filled dictionary holds was there before or is the value of
    an element of the list. *)
Lemma fill_in {X V : Type} (key : X -> option bytes) (value : X -> V)
    (xs : list X) :
  forall (d : dict (option bytes) V) k v,
    In (k, v)
       (fold_left (fun d x => dict_set opt_bytes_eqb d (key x) (value x)) xs d) ->
    In (k, v) d \/ exists x, In x xs /\ v = value x.
Proof.
  induction xs as [|x xs IH]; intros d k v Hin; cbn [fold_left] in Hin;
    [now left|].
  apply IH in Hin as [Hin|[y [Hy ->]]].
  - apply dict_set_in in Hin as [[_ ->]|Hin]; [|now left].
    right. exists x. split; [now left | reflexivity].
  - right. exists y. split; [now right | reflexivity].
Qed.

(** X4.  The resource table of a constructed archive, read from the
    entries of the offset table: under a hash stands the resource of the
    last entry that has this hash (an entry that repeats a hash replaces
    the resource of the earlier one), a hash no entry has is not a key,
    and [resources()] yields no two resources with the same hash. *)
Theorem resource_table_last_entry_wins
    (DECOMPRESSOR_MAP : decompressor_map)
    (read_entries : stream -> result (list c_wim.RESHDR_DISK.t))
    (fh : BinaryIO) (header : c_wim.WIMHEADER_V1_PACKED.t) (wim : WIM.t) :
  WIM.__init__ DECOMPRESSOR_MAP read_entries fh header = Ok wim ->
  exists s reshdrs,
    Resource.open DECOMPRESSOR_MAP
      (Resource.from_short_header (mkHandle fh header)
         (c_wim.WIMHEADER_V1_PACKED.OffsetTable header)) = Ok s
    /\ read_entries s = Ok reshdrs
    /\ (forall h,
          dict_get opt_bytes_eqb (WIM._resource_table wim) (Some h)
          = option_map (Resource.from_header (mkHandle fh header))
              (find (fun r => bytes_eqb (c_wim.RESHDR_DISK.Hash r) h)
                    (rev reshdrs)))
    /\ NoDup (map Resource.hash (WIM.resources wim)).
Proof.
  intros Hinit.
  pose proof (init_keyed_by_hash _ _ _ _ _ Hinit) as [Hnd Hkeys].
  destruct (init_reads_entries _ _ _ _ _ Hinit)
    as (_ & _ & _ & s & reshdrs & Hopen & Hread & Hwim).
  exists s, reshdrs. split; [exact Hopen|]. split; [exact Hread|]. split.
  - intros h. rewrite Hwim. cbn [WIM._resource_table].
    rewrite fold_table. cbn [fst].
    rewrite (dict_get_fill opt_bytes_eqb opt_bytes_eqb_eq
               (fun r => Some (c_wim.RESHDR_DISK.Hash r))
               (Resource.from_header (mkHandle fh header))).
    cbn [opt_bytes_eqb dict_get].
    now destruct (find _ (rev reshdrs)).
  - unfold WIM.resources, dict_values.
    replace (map Resource.hash (map snd (WIM._resource_table wim)))
      with (map fst (WIM._resource_table wim)); [exact Hnd|].
    rewrite map_map. apply map_ext_in. intros [k r] Hin. cbn [fst snd].
    destruct (Hkeys k r Hin) as [H _]. now rewrite H.
Qed.

(** On the sample archive: under the hash of [file.txt] stands the third
    entry of the table. *)
Lemma resource_table_last_entry_wins_sample :
  exists s reshdrs,
    Resource.open Sample.decompressors
      (Resource.from_short_header (mkHandle Sample.file Sample.header)
         (c_wim.WIMHEADER_V1_PACKED.OffsetTable Sample.header)) = Ok s
    /\ Sample.read_entries s = Ok reshdrs
    /\ (forall h,
          dict_get opt_bytes_eqb (WIM._resource_table Sample.wim) (Some h)
          = option_map (Resource.from_header (mkHandle Sample.file Sample.header))
              (find (fun r => bytes_eqb (c_wim.RESHDR_DISK.Hash r) h)
                    (rev reshdrs)))
    /\ NoDup (map Resource.hash (WIM.resources Sample.wim)).
Proof.
  apply (resource_table_last_entry_wins Sample.decompressors
           Sample.read_entries Sample.file Sample.header Sample.wim).
  reflexivity.
Defined.

(** X5.  The images of a constructed archive are the resources of the
    table entries that have the [METADATA] flag, one for each such entry,
    in the order of the entries; every metadata resource that
    [resources()] yields is among them. *)
Theorem images_are_the_metadata_entries
    (DECOMPRESSOR_MAP : decompressor_map)
    (read_entries : stream -> result (list c_wim.RESHDR_DISK.t))
    (fh : BinaryIO) (header : c_wim.WIMHEADER_V1_PACKED.t) (wim : WIM.t) :
  WIM.__init__ DECOMPRESSOR_MAP read_entries fh header = Ok wim ->
  exists s reshdrs,
    Resource.open DECOMPRESSOR_MAP
      (Resource.from_short_header (mkHandle fh header)
         (c_wim.WIMHEADER_V1_PACKED.OffsetTable header)) = Ok s
    /\ read_entries s = Ok reshdrs
    /\ WIM._images wim
       = map (Resource.from_header (mkHandle fh header))
           (filter (fun r =>
                      negb (Z.land (c_wim.RESHDR_DISK_SHORT.Flags
                                      (c_wim.RESHDR_DISK.Base r))
                                   c_wim.RESHDR_FLAG.METADATA =? 0))
                   reshdrs)
    /\ (forall r, In r (WIM._images wim) -> Resource.is_metadata r = true)
    /\ (forall r, In r (WIM.resources wim) ->
                  Resource.is_metadata r = true -> In r (WIM._images wim)).
Proof.
  intros Hinit.
  destruct (init_reads_entries _ _ _ _ _ Hinit)
    as (_ & _ & _ & s & reshdrs & Hopen & Hread & Hwim).
  exists s, reshdrs. split; [exact Hopen|]. split; [exact Hread|].
  assert (Himages : WIM._images wim
                    = filter Resource.is_metadata
                        (map (Resource.from_header (mkHandle fh header)) reshdrs)).
  { rewrite Hwim. cbn [WIM._images]. now rewrite fold_table. }
  split; [|split].
  - rewrite Himages. clear. induction reshdrs as [|r reshdrs IH];
      cbn [map filter]; [reflexivity|].
    unfold Resource.is_metadata at 1.
    cbn [Resource.from_header Resource.from_short_header Resource.flags].
    destruct (negb _); cbn [map]; now rewrite IH.
  - intros r Hin. rewrite Himages in Hin. now apply filter_In in Hin.
  - intros r Hin Hmeta. rewrite Himages. apply filter_In. split; [|exact Hmeta].
    unfold WIM.resources, dict_values in Hin.
    apply in_map_iff in Hin as [[k r'] [Hr Hin]]. cbn [snd] in Hr. subst r'.
    rewrite Hwim in Hin. cbn [WIM._resource_table] in Hin.
    rewrite fold_table in Hin. cbn [fst] in Hin.
    apply fill_in in Hin as [[]|[r0 [Hr0 ->]]].
    apply in_map. exact Hr0.
Qed.

(* ------------------------------------------------------------------ *)
(** ** Reparse points among the directory entries *)

(** The reparse-point bit, bit 10 of the attributes. *)
Lemma is_reparse_point_bit (e : DirectoryEntry.t) :
  DirectoryEntry.is_reparse_point e
  = Z.testbit (c_wim.DIRENTRY.Attributes (DirectoryEntry.entry e)) 10.
Proof.
  unfold DirectoryEntry.is_reparse_point.
  set (a := c_wim.DIRENTRY.Attributes (DirectoryEntry.entry e)).
  change c_wim.FILE_ATTRIBUTE.REPARSE_POINT with (2 ^ 10).
  destruct (Z.testbit a 10) eqn:Hbit.
  - apply negb_true_iff, Z.eqb_neq. intros H0.
    apply (f_equal (fun z => Z.testbit z 10)) in H0.
    rewrite Z.land_spec, Hbit, Z.pow2_bits_true, Z.bits_0 in H0 by lia.
    discriminate.
  - apply negb_false_iff, Z.eqb_eq. apply Z.bits_inj'. intros n Hn.
    rewrite Z.land_spec, Z.bits_0, Z.pow2_bits_eqb by lia.
    destruct (10 =? n) eqn:E; [|apply andb_false_r].
    apply Z.eqb_eq in E. subst n. now rewrite Hbit.
Qed.

Lemma is_dir_clears_bit_10 (e : DirectoryEntry.t) :
  DirectoryEntry.is_dir e = true ->
  Z.testbit (c_wim.DIRENTRY.Attributes (DirectoryEntry.entry e)) 10 = false.
Proof.
  intros Hd. apply is_dir_spec in Hd.
  apply (f_equal (fun z => Z.testbit z 10)) in Hd.
  rewrite Z.land_spec in Hd. cbn in Hd. now rewrite andb_true_r in Hd.
Qed.

(** X6.  Every entry with the reparse-point attribute is a file and not a
    directory, whatever its other attributes: so symbolic links and mount
    points are never iterated.  A symbolic link and a mount point are
    reparse points, and no entry is both. *)
Theorem reparse_points_are_files (e : DirectoryEntry.t) :
  (DirectoryEntry.is_reparse_point e = true ->
   DirectoryEntry.is_dir e = false /\ DirectoryEntry.is_file e = true)
  /\ (DirectoryEntry.is_symlink e = true ->
      DirectoryEntry.is_reparse_point e = true
      /\ DirectoryEntry.is_file e = true
      /\ DirectoryEntry.is_mount_point e = false)
  /\ (DirectoryEntry.is_mount_point e = true ->
      DirectoryEntry.is_reparse_point e = true
      /\ DirectoryEntry.is_file e = true
      /\ DirectoryEntry.is_symlink e = false).
Proof.
  assert (Hfile : DirectoryEntry.is_reparse_point e = true ->
                  DirectoryEntry.is_dir e = false
                  /\ DirectoryEntry.is_file e = true).
  { intros Hrp. rewrite is_reparse_point_bit in Hrp.
    unfold DirectoryEntry.is_file.
    destruct (DirectoryEntry.is_dir e) eqn:Hd; [|now split].
    apply is_dir_clears_bit_10 in Hd. congruence. }
  split; [exact Hfile|].
  unfold DirectoryEntry.is_symlink, DirectoryEntry.is_mount_point.
  split; intros H; apply andb_true_iff in H as [Hrp Htag];
    apply Z.eqb_eq in Htag; rewrite Htag, Hrp;
    (split; [reflexivity | split; [now apply Hfile | reflexivity]]).
Qed.

(** X7.  A reparse point is never both absolute and relative.  One that is
    not a symbolic link is absolute and not relative without a look at its
    buffer; a symbolic link is absolute exactly when its flags are 0 and
    relative exactly when they are 1, so with other flags it is
    neither. *)
Theorem absolute_excludes_relative (rp : ReparsePoint.t) :
  ~ (ReparsePoint.absolute rp = Ok true /\ ReparsePoint.relative rp = Ok true)
  /\ (ReparsePoint.tag rp <> c_wim.IO_REPARSE_TAG.SYMLINK ->
      ReparsePoint.absolute rp = Ok true /\ ReparsePoint.relative rp = Ok false)
  /\ (forall flags,
        ReparsePoint.tag rp = c_wim.IO_REPARSE_TAG.SYMLINK ->
        ReparsePoint.info_Flags rp = Ok flags ->
        ReparsePoint.absolute rp = Ok (flags =? 0)
        /\ ReparsePoint.relative rp = Ok (flags =? 1)
        /\ (flags <> 0 -> flags <> 1 ->
            ReparsePoint.absolute rp = Ok false
            /\ ReparsePoint.relative rp = Ok false)).
Proof.
  unfold ReparsePoint.absolute, ReparsePoint.relative.
  destruct (ReparsePoint.tag rp =? c_wim.IO_REPARSE_TAG.SYMLINK) eqn:Etag;
    cbn [negb].
  - apply Z.eqb_eq in Etag. split; [|split].
    + destruct (ReparsePoint.info_Flags rp) as [flags|]; cbn [bind];
        [|intros [H _]; discriminate].
      intros [[= H0] [= H1]].
      apply Z.eqb_eq in H0, H1. unfold c_wim.SYMLINK_FLAG.ABSOLUTE,
        c_wim.SYMLINK_FLAG.RELATIVE in *. lia.
    + intros H. contradiction.
    + intros flags _ ->. cbn [bind]. split; [reflexivity|].
      split; [reflexivity|]. intros H0 H1.
      apply Z.eqb_neq in H0, H1.
      unfold c_wim.SYMLINK_FLAG.ABSOLUTE, c_wim.SYMLINK_FLAG.RELATIVE.
      now rewrite H0, H1.
  - apply Z.eqb_neq in Etag. split; [|split].
    + intros [_ H]. discriminate.
    + intros _. now split.
    + intros flags H. contradiction.
Qed.

(* ------------------------------------------------------------------ *)
(** ** Paths *)

Local Open Scope string_scope.

Lemma str_replace_app (old new : ascii) (a b : string) :
  str_replace old new (a ++ b) = str_replace old new a ++ str_replace old new b.
Proof.
  induction a as [|c a IH]; cbn [append str_replace]; [reflexivity|].
  now rewrite IH.
Qed.

Lemma str_split_cons (sep : ascii) (s : string) :
  exists part parts, str_split sep s = part :: parts.
Proof.
  induction s as [|c s [part [parts IH]]]; cbn [str_split]; [eauto|].
  destruct (Ascii.eqb c sep); [eauto|]. rewrite IH. eauto.
Qed.

(** A separator between two strings cuts between their parts. *)
Lemma str_split_app (sep : ascii) (a b : string) :
  str_split sep (a ++ String sep b) = (str_split sep a ++ str_split sep b)%list.
Proof.
  induction a as [|c a IH]; cbn [append str_split].
  - now rewrite Ascii.eqb_refl.
  - destruct (Ascii.eqb c sep); rewrite IH; [reflexivity|].
    destruct (str_split_cons sep a) as [part [parts ->]]. reflexivity.
Qed.

(** The parts of two paths joined by either separator. *)
Lemma search_parts_join (p q : string) :
  Image.search_parts (p ++ String "/" q)
  = (Image.search_parts p ++ Image.search_parts q)%list
  /\ Image.search_parts (p ++ String "\" q)
     = (Image.search_parts p ++ Image.search_parts q)%list.
Proof.
  unfold Image.search_parts. rewrite !str_replace_app.
  cbn [str_replace]. change (Ascii.eqb "/" "/") with true.
  change (Ascii.eqb "\" "/") with false. cbn iota.
  now rewrite str_split_app.
Qed.

Lemma get_as_traverse (image : Image.t) (path : string)
    (entry : option DirectoryEntry.t) :
  Image.get image path entry
  = Image.traverse (Image.fh image) (Image.search_parts path)
      (match entry with Some e => e | None => Image.root image end).
Proof. reflexivity. Qed.

(** X8.  [get] composes along a path: looking up [p/q] (or [p\q]) is
    looking up [p] and then [q] from the entry found, with the failure of
    the first lookup if it fails.  The empty path is the starting entry,
    so a separator at the start or at the end of a path changes
    nothing. *)
Theorem get_composes
    (image : Image.t) (p q : string) (entry : option DirectoryEntry.t) :
  Image.get image (p ++ "/" ++ q) entry
  = bind (Image.get image p entry) (fun d => Image.get image q (Some d))
  /\ Image.get image (p ++ "\" ++ q) entry
     = bind (Image.get image p entry) (fun d => Image.get image q (Some d))
  /\ Image.get image "" entry
     = Ok (match entry with Some e => e | None => Image.root image end)
  /\ Image.get image (p ++ "/") entry = Image.get image p entry
  /\ Image.get image ("/" ++ p) entry = Image.get image p entry.
Proof.
  assert (Hjoin : forall a b,
             Image.get image (a ++ String "/" b) entry
             = bind (Image.get image a entry)
                    (fun d => Image.get image b (Some d))).
  { intros a b. rewrite !get_as_traverse.
    rewrite (proj1 (search_parts_join a b)), traverse_app. reflexivity. }
  split; [apply Hjoin|]. split; [|split; [reflexivity|split]].
  - rewrite !get_as_traverse.
    change ("\" ++ q) with (String "\" q).
    rewrite (proj2 (search_parts_join p q)), traverse_app. reflexivity.
  - change "/" with (String "/" ""). rewrite Hjoin.
    destruct (Image.get image p entry); reflexivity.
  - change ("/" ++ p) with ("" ++ String "/" p). rewrite Hjoin. reflexivity.
Qed.

(** The characters of a string. *)
Lemma str_split_chars (sep : ascii) (s : string) :
  forall part c,
    In part (str_split sep s) ->
    In c (list_ascii_of_string part) ->
    c <> sep /\ In c (list_ascii_of_string s).
Proof.
  induction s as [|c0 s IH]; intros part c; cbn [str_split].
  - intros [<-|[]] [].
  - destruct (Ascii.eqb c0 sep) eqn:E.
    + intros [<-|Hin] Hc; [destruct Hc|].
      destruct (IH part c Hin Hc) as [Hne Hs]. split; [exact Hne|].
      now right.
    + destruct (str_split_cons sep s) as [p0 [ps Hsplit]]. rewrite Hsplit in *.
      intros [<-|Hin] Hc.
      * cbn [list_ascii_of_string] in Hc. destruct Hc as [<-|Hc].
        -- split; [now apply Ascii.eqb_neq | now left].
        -- destruct (IH p0 c (or_introl eq_refl) Hc) as [Hne Hs].
           split; [exact Hne | now right].
      * destruct (IH part c (or_intror Hin) Hc) as [Hne Hs].
        split; [exact Hne | now right].
Qed.

Lemma str_replace_chars (old new : ascii) (s : string) (c : ascii) :
  Ascii.eqb new old = false ->
  In c (list_ascii_of_string (str_replace old new s)) -> c <> old.
Proof.
  intros Hneq. induction s as [|c0 s IH]; cbn [str_replace list_ascii_of_string];
    [intros []|].
  intros [<-|Hin]; [|now apply IH].
  destruct (Ascii.eqb c0 old) eqn:E; [now apply Ascii.eqb_neq|].
  now apply Ascii.eqb_neq.
Qed.

Lemma str_split_join (sep : ascii) (s : string) :
  String.concat (String sep "") (str_split sep s) = s.
Proof.
  induction s as [|c s IH]; cbn [str_split]; [reflexivity|].
  destruct (str_split_cons sep s) as [part [parts Hsplit]].
  rewrite Hsplit in *.
  destruct (Ascii.eqb c sep) eqn:E.
  - apply Ascii.eqb_eq in E. subst c.
    change (String.concat (String sep "") ("" :: part :: parts))
      with (String sep (String.concat (String sep "") (part :: parts))).
    now rewrite IH.
  - replace (String.concat (String sep "") (String c part :: parts))
      with (String c (String.concat (String sep "") (part :: parts)))
      by (destruct parts; reflexivity).
    now rewrite IH.
Qed.

(** X9.  The parts [get] looks up: none of them contains a slash or a
    backslash, so an entry whose name contains one is never found; and
    joined by backslashes they give back the path with its slashes
    replaced, so nothing of the path is lost. *)
Theorem search_parts_have_no_separator (path : string) :
  (forall part c,
      In part (Image.search_parts path) ->
      In c (list_ascii_of_string part) ->
      c <> "/"%char /\ c <> "\"%char)
  /\ String.concat "\" (Image.search_parts path) = str_replace "/" "\" path
  /\ (forall (image : Image.t) (entry : DirectoryEntry.t) (n part : string),
        DirectoryEntry.name entry = Some n ->
        In "/"%char (list_ascii_of_string n)
        \/ In "\"%char (list_ascii_of_string n) ->
        In part (Image.search_parts path) ->
        Image.name_is entry part = false).
Proof.
  assert (Hparts : forall part c,
             In part (Image.search_parts path) ->
             In c (list_ascii_of_string part) ->
             c <> "/"%char /\ c <> "\"%char).
  { intros part c Hin Hc. unfold Image.search_parts in Hin.
    destruct (str_split_chars _ _ _ _ Hin Hc) as [Hsep Hrep].
    split; [|exact Hsep]. now apply str_replace_chars in Hrep. }
  split; [exact Hparts|]. split; [apply str_split_join|].
  intros image entry n part Hname Hsep Hin.
  unfold Image.name_is. rewrite Hname.
  apply String.eqb_neq. intros ->.
  destruct Hsep as [Hc|Hc]; destruct (Hparts _ _ Hin Hc) as [H1 H2]; congruence.
Qed.

Local Close Scope string_scope.

(* ------------------------------------------------------------------ *)
(** ** Listings *)

Lemma name_eqb_eq (a b : option string) :
  DirectoryEntry.name_eqb a b = true <-> a = b.
Proof.
  destruct a as [x|], b as [y|]; cbn [DirectoryEntry.name_eqb];
    try (split; [discriminate | congruence]); try tauto.
  rewrite String.eqb_eq. split; congruence.
Qed.

Lemma name_eqb_name_is (c : DirectoryEntry.t) (n : string) :
  DirectoryEntry.name_eqb (DirectoryEntry.name c) (Some n) = Image.name_is c n.
Proof.
  unfold Image.name_is. now destruct (DirectoryEntry.name c).
Qed.

(** The inner loop of [get] on an iteration that ends by itself: the
    first child of the name. *)
Lemma find_child_first (entries : list DirectoryEntry.t) (n : string) :
  Image.find_child entries None n
  = match find (fun c => Image.name_is c n) entries with
    | Some c => Ok c
    | None => Raise FileNotFoundError
    end.
Proof.
  induction entries as [|c entries IH]; cbn [Image.find_child find];
    [reflexivity|].
  now destruct (Image.name_is c n).
Qed.

Lemma find_same_test {A} (f g : A -> bool) (l : list A) :
  (forall x, f x = g x) -> find f l = find g l.
Proof.
  intros Hfg. induction l as [|x l IH]; cbn [find]; [reflexivity|].
  now rewrite Hfg, IH.
Qed.

(** Where at most one element passes a test, the first and the last that
    pass are the same. *)
Lemma find_rev_unique {A B} (f : A -> bool) (g : A -> B) (l : list A) :
  NoDup (map g l) ->
  (forall x y, f x = true -> f y = true -> g x = g y) ->
  find f (rev l) = find f l.
Proof.
  intros Hnd Hsame. induction l as [|x l IH]; [reflexivity|].
  cbn [map] in Hnd. inversion Hnd as [|? ? Hfresh Hnd']; subst.
  cbn [rev find].
  assert (Happ : forall l1,
             find f (l1 ++ [x])
             = match find f l1 with
               | Some y => Some y
               | None => if f x then Some x else None
               end).
  { induction l1 as [|y l1 IHl]; cbn [app find]; [reflexivity|].
    destruct (f y); [reflexivity | exact IHl]. }
  rewrite Happ, (IH Hnd').
  destruct (f x) eqn:Hx; [|now destruct (find f l)].
  destruct (find f l) as [y|] eqn:Hfind; [|reflexivity].
  exfalso. apply find_some in Hfind as [Hin Hy].
  apply Hfresh. rewrite (Hsame x y Hx Hy). now apply in_map.
Qed.

(** X10.  [get] and [listdir] on a directory whose iteration ends by
    itself, for a name [n] that is a single part of a path: [get] finds
    the first child named [n] and fails with [FileNotFoundError] when
    there is none; the listing holds the last child named [n] under [n];
    so the two give the same entry when no two children share a name. *)
Theorem listdir_and_get
    (image : Image.t) (d : DirectoryEntry.t)
    (entries : list DirectoryEntry.t) (n : string) :
  DirectoryEntry.iterdir (Image.fh image) d = (entries, None) ->
  Image.search_parts n = [n] ->
  n <> EmptyString ->
  Image.get image n (Some d)
  = match find (fun c => Image.name_is c n) entries with
    | Some c => Ok c
    | None => Raise FileNotFoundError
    end
  /\ exists listing,
       DirectoryEntry.listdir (Image.fh image) d = Ok listing
       /\ dict_get DirectoryEntry.name_eqb listing (Some n)
          = find (fun c => Image.name_is c n) (rev entries)
       /\ (NoDup (map DirectoryEntry.name entries) ->
           forall e,
             Image.get image n (Some d) = Ok e
             <-> dict_get DirectoryEntry.name_eqb listing (Some n) = Some e).
Proof.
  intros Hit Hparts Hn.
  assert (Hget : Image.get image n (Some d)
                 = match find (fun c => Image.name_is c n) entries with
                   | Some c => Ok c
                   | None => Raise FileNotFoundError
                   end).
  { rewrite get_as_traverse, Hparts. cbn [Image.traverse].
    apply String.eqb_neq in Hn. rewrite Hn, Hit, find_child_first.
    now destruct (find _ entries). }
  split; [exact Hget|].
  unfold DirectoryEntry.listdir. rewrite Hit. eexists. split; [reflexivity|].
  assert (Hlisting :
            dict_get DirectoryEntry.name_eqb
              (fold_left
                 (fun d0 entry =>
                    dict_set DirectoryEntry.name_eqb d0
                      (DirectoryEntry.name entry) entry) entries [])
              (Some n)
            = find (fun c => Image.name_is c n) (rev entries)).
  { rewrite (dict_get_fill DirectoryEntry.name_eqb name_eqb_eq
               DirectoryEntry.name (fun entry => entry)).
    cbn [dict_get].
    rewrite (find_same_test _ (fun c => Image.name_is c n))
      by (intros c; apply name_eqb_name_is).
    now destruct (find _ (rev entries)). }
  split; [exact Hlisting|].
  intros Hnd e. rewrite Hget, Hlisting.
  rewrite (find_rev_unique _ DirectoryEntry.name entries Hnd).
  - destruct (find _ entries); split; congruence.
  - intros x y Hx Hy. unfold Image.name_is in Hx, Hy.
    destruct (DirectoryEntry.name x), (DirectoryEntry.name y);
      try discriminate.
    apply String.eqb_eq in Hx, Hy. congruence.
Qed.

(** On the sample image: [dir] in the root, by [get] and by [listdir]. *)
Lemma listdir_and_get_sample :
  Image.get Sample.image "dir" (Some Sample.root_entry) = Ok Sample.dir
  /\ exists listing,
       DirectoryEntry.listdir (Image.fh Sample.image) Sample.root_entry
       = Ok listing
       /\ dict_get DirectoryEntry.name_eqb listing (Some "dir"%string)
          = Some Sample.dir.
Proof.
  destruct (listdir_and_get Sample.image Sample.root_entry
              [Sample.ads_txt; Sample.dir; Sample.file_txt; Sample.link_txt]
              "dir") as (Hget & listing & Hlist & Hlast & _);
    [reflexivity | reflexivity | discriminate |].
  split; [exact Hget|]. exists listing. split; [exact Hlist | exact Hlast].
Defined.

(** On the archive with two images: the two metadata entries, in the
    order of the table. *)
Lemma images_are_the_metadata_entries_sample :
  exists s reshdrs,
    Resource.open Sample.decompressors
      (Resource.from_short_header (mkHandle Sample.file Sample.header)
         (c_wim.WIMHEADER_V1_PACKED.OffsetTable Sample.header)) = Ok s
    /\ Sample.read_entries_of_two_images s = Ok reshdrs
    /\ WIM._images Sample.wim_of_two_images
       = map (Resource.from_header (mkHandle Sample.file Sample.header))
           (filter (fun r =>
                      negb (Z.land (c_wim.RESHDR_DISK_SHORT.Flags
                                      (c_wim.RESHDR_DISK.Base r))
                                   c_wim.RESHDR_FLAG.METADATA =? 0))
                   reshdrs)
    /\ (forall r, In r (WIM._images Sample.wim_of_two_images) ->
                  Resource.is_metadata r = true)
    /\ (forall r, In r (WIM.resources Sample.wim_of_two_images) ->
                  Resource.is_metadata r = true ->
                  In r (WIM._images Sample.wim_of_two_images)).
Proof.
  apply (images_are_the_metadata_entries Sample.decompressors
           Sample.read_entries_of_two_images Sample.file Sample.header
           Sample.wim_of_two_images).
  reflexivity.
Defined.

(* ------------------------------------------------------------------ *)
(** ** Reads from a constructed stream *)




Section ReadBound.

Variable self : CompressedStream.t.

Let num_chunks := len (CompressedStream._chunks self).






End ReadBound.




(* ------------------------------------------------------------------ *)
(** ** The names of a reparse point *)

(** X13.  When [print_name] is [None].  For a reparse point that
    [ReparsePoint(tag, fh)] has built, [print_name] is [None] exactly
    when the tag is neither [MOUNT_POINT] nor [SYMLINK], or the
    structure that was read is false (as the one whose fields are all 0
    is for version 4 of the structure library); with a structure that is
    true it is the decoded name or the failure of the decoding, never
    [None]. *)
Theorem print_name_is_None_iff
    (MOUNT_POINT_REPARSE_BUFFER SYMBOLIC_LINK_REPARSE_BUFFER :
       BinaryIO -> result (c_wim.REPARSE_BUFFER.t * BinaryIO))
    (utf_16_le : bytes -> result string)
    (tag : Z) (fh : BinaryIO) (rp : ReparsePoint.t) :
  ReparsePoint.__init__ MOUNT_POINT_REPARSE_BUFFER SYMBOLIC_LINK_REPARSE_BUFFER
    tag fh = Ok rp ->
  (ReparsePoint.print_name utf_16_le rp = Ok None
   <-> (tag <> c_wim.IO_REPARSE_TAG.MOUNT_POINT
        /\ tag <> c_wim.IO_REPARSE_TAG.SYMLINK)
       \/ exists i, ReparsePoint.info rp = Some i
                    /\ c_wim.REPARSE_BUFFER.__bool__ i = false)
  /\ (forall i,
        ReparsePoint.info rp = Some i ->
        c_wim.REPARSE_BUFFER.__bool__ i = true ->
        (tag = c_wim.IO_REPARSE_TAG.MOUNT_POINT
         \/ tag = c_wim.IO_REPARSE_TAG.SYMLINK)
        /\ ReparsePoint.print_name utf_16_le rp <> Ok None).
Proof.
  intros Hinit. destruct (init_info _ _ _ _ _ Hinit) as [_ Hinfo].
  rewrite print_name_guarded.
  destruct (ReparsePoint.info rp) as [i|].
  - assert (Htag : ~ (tag <> c_wim.IO_REPARSE_TAG.MOUNT_POINT
                      /\ tag <> c_wim.IO_REPARSE_TAG.SYMLINK))
      by (intros H; apply Hinfo in H; discriminate).
    split.
    + destruct (c_wim.REPARSE_BUFFER.__bool__ i) eqn:Hb.
      * split.
        -- destruct (utf_16_le _); cbn [bind]; discriminate.
        -- intros [H|(i' & [= <-] & H)]; [contradiction | congruence].
      * split; [|reflexivity]. intros _. right. now exists i.
    + intros i' [= <-] Hb. rewrite Hb. split.
      * destruct (Z.eq_dec tag c_wim.IO_REPARSE_TAG.MOUNT_POINT); [tauto|].
        destruct (Z.eq_dec tag c_wim.IO_REPARSE_TAG.SYMLINK); tauto.
      * destruct (utf_16_le _); cbn [bind]; discriminate.
  - split; [|discriminate].
    split; [|reflexivity]. intros _. left. now apply Hinfo.
Qed.

(** On the reparse data of the sample mount point the print name is
    [C:]; on reparse data of which every field is 0, which the parser of
    the samples reads as a structure that is false, a mount point has no
    print name. *)
Lemma print_name_is_None_iff_sample :
  (exists rp,
     ReparsePoint.__init__ Sample.reparse_buffer Sample.reparse_buffer
       c_wim.IO_REPARSE_TAG.MOUNT_POINT Sample.link_data = Ok rp
     /\ ReparsePoint.print_name Sample.low_bytes rp = Ok (Some "C:"%string))
  /\ (exists rp,
        ReparsePoint.__init__ Sample.reparse_buffer Sample.reparse_buffer
          c_wim.IO_REPARSE_TAG.MOUNT_POINT Sample.blank_link_data = Ok rp
        /\ ReparsePoint.print_name Sample.low_bytes rp = Ok None).
Proof.
  split; eexists; (split; [reflexivity|]).
  - reflexivity.
  - apply (print_name_is_None_iff Sample.reparse_buffer Sample.reparse_buffer
             Sample.low_bytes c_wim.IO_REPARSE_TAG.MOUNT_POINT
             Sample.blank_link_data); [reflexivity|].
    right. eexists. split; reflexivity.
Defined.

(* ------------------------------------------------------------------ *)
(** ** The parse of the metadata stream *)

(** [(x + 7) & -8] is the least multiple of 8 that is not below [x]. *)
Lemma align_up (x : Z) : Z.land (x + 7) (-8) = 8 * ((x + 7) / 8).
Proof.
  change (-8) with (Z.lnot (Z.ones 3)).
  rewrite <- Z.ldiff_land, Z.ldiff_ones_r by lia.
  rewrite Z.shiftr_div_pow2, Z.shiftl_mul_pow2 by lia.
  change (2 ^ 3) with 8. lia.
Qed.

Lemma align_up_bounds (x : Z) : x <= Z.land (x + 7) (-8) < x + 8.
Proof.
  rewrite align_up.
  pose proof (Z.div_mod (x + 7) 8) as Hdiv.
  pose proof (Z.mod_pos_bound (x + 7) 8) as Hmod. lia.
Qed.

(** [x + (-x & 7)], the padding of [Image.__init__], is that position. *)
Lemma pad_is_align_up (x : Z) : x + Z.land (- x) 7 = Z.land (x + 7) (-8).
Proof.
  rewrite align_up.
  replace (Z.land (- x) 7) with ((- x) mod 8)
    by (change 7 with (Z.ones 3); rewrite Z.land_ones by lia; reflexivity).
  pose proof (Z.div_mod (x + 7) 8) as Hdiv.
  pose proof (Z.mod_pos_bound (x + 7) 8) as Hmod.
  rewrite <- (Z.mod_unique (- x) 8 (- ((x + 7) / 8)) (7 - (x + 7) mod 8)); lia.
Qed.

Lemma read_pos (fh : BinaryIO) (n : Z) buf fh' :
  read fh n = (buf, fh') -> data fh' = data fh /\ pos fh' = pos fh + len buf.
Proof. unfold read. intros [= <- <-]. split; reflexivity. Qed.

Lemma read_len (fh : BinaryIO) (n : Z) buf fh' :
  0 <= pos fh -> read fh n = (buf, fh') ->
  len buf <= Z.max 0 (len (data fh) - pos fh).
Proof.
  unfold read. intros Hpos [= <- _].
  destruct (n <? 0); unfold len; rewrite ?length_firstn, length_skipn; lia.
Qed.

Section Cursor.

Import DirectoryEntry.

Lemma and_then_inr {A B} (c : parser A) (k : A -> parser B) fh b fh2 :
  and_then c k fh = inr (b, fh2) ->
  exists a fh1, c fh = inr (a, fh1) /\ k a fh1 = inr (b, fh2).
Proof.
  unfold and_then. destruct (c fh) as [e|[a fh1]]; [discriminate|].
  intros H. now exists a, fh1.
Qed.

Lemma forward_ret {A} (a : A) : forward (ret a).
Proof. intros fh a' fh' [= <- <-]. split; [reflexivity | lia]. Qed.

Lemma forward_fail {A} e : forward (@fail A e).
Proof. intros fh a fh'. discriminate. Qed.

Lemma read_inr n fh buf fh' :
  read_ n fh = inr (buf, fh') -> read fh n = (buf, fh').
Proof.
  unfold read_. destruct (read fh n) as [b f]. now intros [= <- <-].
Qed.

Lemma forward_read n : forward (read_ n).
Proof.
  intros fh buf fh' H. apply read_inr in H.
  destruct (read_pos _ _ _ _ H) as [Hdata Hpos].
  pose proof (len_nonneg buf). split; [assumption | lia].
Qed.

Lemma forward_and_then {A B} (c : parser A) (k : A -> parser B) :
  forward c -> (forall a, forward (k a)) -> forward (and_then c k).
Proof.
  intros Hc Hk fh b fh2 H. apply and_then_inr in H as (a & fh1 & H1 & H2).
  destruct (Hc _ _ _ H1), (Hk _ _ _ _ H2). split; [congruence | lia].
Qed.

Lemma forward_cstruct {A} (X : c_wim.structure A) : forward (cstruct X).
Proof.
  apply forward_and_then; [apply forward_read|]. intros buf.
  destruct (len buf <? c_wim.sizeof X); [apply forward_fail | apply forward_ret].
Qed.

(** A structure that has been read has moved the cursor by its size. *)
Lemma cstruct_cursor {A} (X : c_wim.structure A) fh a fh' :
  cstruct X fh = inr (a, fh') -> pos fh + c_wim.sizeof X <= pos fh'.
Proof.
  intros H. apply and_then_inr in H as (buf & fh1 & H1 & H2).
  apply read_inr in H1.
  destruct (len buf <? c_wim.sizeof X) eqn:E; [discriminate|].
  injection H2 as _ <-. apply Z.ltb_ge in E.
  destruct (read_pos _ _ _ _ H1). lia.
Qed.

Variable T : types.

Lemma forward_read_name length : forward (read_name T length).
Proof.
  apply forward_and_then; [apply forward_read|]. intros buf.
  destruct (utf_16_le T buf); [|apply forward_fail].
  apply forward_and_then; [apply forward_read | intros; apply forward_ret].
Qed.

Lemma forward_optional_name length :
  forward (if length =? 0 then ret None
           else and_then (read_name T length) (fun name => ret (Some name))).
Proof.
  destruct (length =? 0); [apply forward_ret|].
  apply forward_and_then; [apply forward_read_name | intros; apply forward_ret].
Qed.

Lemma forward_stream_name name_length :
  forward (if name_length =? 0 then ret (EmptyString, name_length)
           else and_then (read_name T name_length)
                         (fun name => ret (name, name_length + 2))).
Proof.
  destruct (name_length =? 0); [apply forward_ret|].
  apply forward_and_then; [apply forward_read_name | intros; apply forward_ret].
Qed.

Lemma forward_skip remaining :
  forward (if remaining =? 0 then ret [] else read_ remaining).
Proof.
  destruct (remaining =? 0); [apply forward_ret | apply forward_read].
Qed.

Lemma forward_extra length length' :
  forward (if length >? 0
           then and_then (read_ length) (fun extra => ret (Some extra))
           else if length' >? 0
                then and_then (read_ length') (fun extra => ret (Some extra))
                else ret None).
Proof.
  destruct (length >? 0);
    [apply forward_and_then; [apply forward_read | intros; apply forward_ret]|].
  destruct (length' >? 0);
    [apply forward_and_then; [apply forward_read | intros; apply forward_ret]|].
  apply forward_ret.
Qed.

Lemma forward_read_streams count :
  forall streams, forward (read_streams T count streams).
Proof.
  induction count as [|count IH]; intros streams; cbn [read_streams].
  - apply forward_ret.
  - intros fh a fh' H.
    apply and_then_inr in H as (position & fh1 & [= <- <-] & H).
    apply and_then_inr in H as ([] & fh2 & [= <-] & H).
    apply and_then_inr in H as (stream & fh3 & H3 & H).
    apply and_then_inr in H as ([name name_length] & fh4 & H4 & H).
    apply and_then_inr in H as (skipped & fh5 & H5 & H).
    apply IH in H. apply forward_cstruct in H3.
    cbv zeta in H4. apply forward_stream_name in H4.
    apply forward_skip in H5.
    cbn [data pos seek] in H3.
    pose proof (align_up_bounds (tell fh)) as Halign. unfold tell in *.
    destruct H, H3, H4, H5. split; [congruence | lia].
Qed.

(** A record that has been parsed has left the content of the stream as
    it is and has moved the cursor over the whole fixed part at least. *)
Lemma init_cursor fh e fh' :
  __init__ T fh = inr (e, fh') ->
  data fh' = data fh
  /\ pos fh + c_wim.sizeof (_DIRENTRY T) <= pos fh'
  /\ pos fh <= pos fh'.
Proof.
  intros H. unfold __init__ in H.
  apply and_then_inr in H as (start & fh1 & [= <- <-] & H).
  apply and_then_inr in H as (entry & fh2 & Hentry & H).
  apply and_then_inr in H as (name & fh3 & Hname & H).
  apply and_then_inr in H as (short & fh4 & Hshort & H).
  apply and_then_inr in H as (end_ & fh5 & [= <- <-] & H).
  apply and_then_inr in H as (extra & fh6 & Hextra & H).
  apply and_then_inr in H as (streams & fh7 & Hstreams & H).
  injection H as _ <-.
  pose proof (cstruct_cursor _ _ _ _ Hentry) as Hsize.
  apply forward_cstruct in Hentry.
  apply forward_optional_name in Hname.
  apply forward_optional_name in Hshort.
  cbv zeta in Hextra. apply forward_extra in Hextra.
  assert (Hstreams' : data fh7 = data fh6 /\ pos fh6 <= pos fh7).
  { destruct (c_wim.DIRENTRY.Streams entry =? 0);
      [apply forward_ret in Hstreams
      |apply forward_read_streams in Hstreams]; exact Hstreams. }
  destruct Hentry, Hname, Hshort, Hextra, Hstreams'.
  repeat split; [congruence | lia | lia].
Qed.

End Cursor.

Lemma dict_set_len {K V} (eqb : K -> K -> bool) (d : dict K V) k v :
  len d <= len (dict_set eqb d k v) <= len d + 1
  /\ 1 <= len (dict_set eqb d k v).
Proof.
  unfold len. induction d as [|[k' v'] d IH]; cbn [dict_set List.length].
  - lia.
  - destruct (eqb k' k); cbn [List.length]; lia.
Qed.

Section Parse.

Import DirectoryEntry.

Variable T : types.

(** The loop over the streams of a record only adds keys, one a turn at
    most, and leaves at least one after a turn. *)
Lemma read_streams_len count :
  forall streams fh streams' fh',
    read_streams T count streams fh = inr (streams', fh') ->
    len streams <= len streams' <= len streams + Z.of_nat count
    /\ ((0 < count)%nat -> 1 <= len streams').
Proof.
  induction count as [|count IH]; intros streams fh streams' fh' H;
    cbn [read_streams] in H.
  - injection H as <- _. split; lia.
  - apply and_then_inr in H as (position & fh1 & _ & H).
    apply and_then_inr in H as ([] & fh2 & _ & H).
    apply and_then_inr in H as (stream & fh3 & _ & H).
    apply and_then_inr in H as ([name name_length] & fh4 & _ & H).
    apply and_then_inr in H as (skipped & fh5 & _ & H).
    apply IH in H as [Hlen _].
    pose proof (dict_set_len String.eqb streams name
                  (c_wim.STREAMENTRY.Hash stream)).
    split; lia.
Qed.

(** X14.  What the parse of a record leaves in the entry.  The entry has
    a name exactly when [FileNameLength] is not 0, and a short name
    exactly when [ShortNameLength] is not 0; so an entry of a record
    without name is never the child [get] looks for.  A record that
    declares no stream gives the one stream [""] with the hash of the
    record, and a record that declares [Streams > 0] streams gives
    between 1 and [Streams] of them (a name that comes twice is one
    key). *)
Theorem parsed_entry_names_and_streams
    (fh : BinaryIO) (e : t) (fh' : BinaryIO) :
  __init__ T fh = inr (e, fh') ->
  (name e = None <-> c_wim.DIRENTRY.FileNameLength (entry e) = 0)
  /\ (short_name e = None <-> c_wim.DIRENTRY.ShortNameLength (entry e) = 0)
  /\ (c_wim.DIRENTRY.FileNameLength (entry e) = 0 ->
      forall part, Image.name_is e part = false)
  /\ (c_wim.DIRENTRY.Streams (entry e) = 0 ->
      streams e = [(EmptyString, c_wim.DIRENTRY.Hash (entry e))])
  /\ (0 < c_wim.DIRENTRY.Streams (entry e) ->
      1 <= len (streams e) <= c_wim.DIRENTRY.Streams (entry e)).
Proof.
  intros H. unfold __init__ in H.
  apply and_then_inr in H as (start & fh1 & _ & H).
  apply and_then_inr in H as (record & fh2 & _ & H).
  apply and_then_inr in H as (n & fh3 & Hname & H).
  apply and_then_inr in H as (short & fh4 & Hshort & H).
  apply and_then_inr in H as (end_ & fh5 & _ & H).
  apply and_then_inr in H as (more & fh6 & _ & H).
  apply and_then_inr in H as (named & fh7 & Hstreams & H).
  injection H as <- _. cbn [entry name short_name streams].
  cbv zeta in Hname, Hshort.
  assert (Hn : n = None <-> c_wim.DIRENTRY.FileNameLength record = 0).
  { destruct (c_wim.DIRENTRY.FileNameLength record =? 0) eqn:E.
    - apply Z.eqb_eq in E. injection Hname as <- _. tauto.
    - apply Z.eqb_neq in E.
      apply and_then_inr in Hname as (s & fh0 & _ & [= <- _]).
      split; [discriminate | contradiction]. }
  assert (Hs : short = None <-> c_wim.DIRENTRY.ShortNameLength record = 0).
  { destruct (c_wim.DIRENTRY.ShortNameLength record =? 0) eqn:E.
    - apply Z.eqb_eq in E. injection Hshort as <- _. tauto.
    - apply Z.eqb_neq in E.
      apply and_then_inr in Hshort as (s & fh0 & _ & [= <- _]).
      split; [discriminate | contradiction]. }
  split; [exact Hn|]. split; [exact Hs|]. split; [|split].
  - intros H0 part. apply Hn in H0. unfold Image.name_is. cbn [name].
    now rewrite H0.
  - intros H0. rewrite H0 in Hstreams. now injection Hstreams as <- _.
  - intros Hpos.
    destruct (c_wim.DIRENTRY.Streams record =? 0) eqn:E;
      [apply Z.eqb_eq in E; lia|].
    apply read_streams_len in Hstreams as [Hlen Hone].
    change (len []) with 0 in Hlen. split; [apply Hone|]; lia.
Qed.

End Parse.

(** On the record of [d] in the sample stream, which has two streams. *)
Lemma parsed_entry_names_and_streams_sample :
  (DirectoryEntry.name Sample.parsed_d = None
   <-> c_wim.DIRENTRY.FileNameLength (DirectoryEntry.entry Sample.parsed_d) = 0)
  /\ (DirectoryEntry.short_name Sample.parsed_d = None
      <-> c_wim.DIRENTRY.ShortNameLength (DirectoryEntry.entry Sample.parsed_d)
          = 0)
  /\ (c_wim.DIRENTRY.FileNameLength (DirectoryEntry.entry Sample.parsed_d) = 0 ->
      forall part, Image.name_is Sample.parsed_d part = false)
  /\ (c_wim.DIRENTRY.Streams (DirectoryEntry.entry Sample.parsed_d) = 0 ->
      DirectoryEntry.streams Sample.parsed_d
      = [(EmptyString,
          c_wim.DIRENTRY.Hash (DirectoryEntry.entry Sample.parsed_d))])
  /\ (0 < c_wim.DIRENTRY.Streams (DirectoryEntry.entry Sample.parsed_d) ->
      1 <= len (DirectoryEntry.streams Sample.parsed_d)
        <= c_wim.DIRENTRY.Streams (DirectoryEntry.entry Sample.parsed_d)).
Proof.
  apply (parsed_entry_names_and_streams Sample.types
           (seek Sample.metadata_fh 248) Sample.parsed_d
           (mkIO Sample.metadata_bytes 448)).
  vm_compute. reflexivity.
Defined.

(* ------------------------------------------------------------------ *)
(** ** The loop of [iterdir] *)

Section Iteration.

Import DirectoryEntry.

Variable T : types.

(** With more fuel the loop gives what it has given. *)
Lemma iterdir_loop_more (fuel : nat) :
  forall fuel' fh listing,
    (fuel <= fuel')%nat ->
    iterdir_loop T fuel fh = Some listing ->
    iterdir_loop T fuel' fh = Some listing.
Proof.
  induction fuel as [|fuel IH]; intros fuel' fh listing Hle; [discriminate|].
  destruct fuel' as [|fuel']; [lia|].
  cbn [iterdir_loop].
  destruct (read fh 8) as [buf fh1].
  destruct (int_from_bytes_little buf <=? 8); [trivial|].
  destruct (__init__ T _) as [e|[child fh2]]; [trivial|].
  destruct (iterdir_loop T fuel _) as [[entries failure]|] eqn:E;
    [|discriminate].
  assert (Hle' : (fuel <= fuel')%nat) by lia.
  now rewrite (IH fuel' _ _ Hle' E).
Qed.

(** Every turn that yields an entry moves the cursor forward, and at the
    end of the stream the loop stops: a record is at least as long as the
    8 bytes the loop has read and gone back over. *)
Lemma iterdir_loop_ends :
  8 <= c_wim.sizeof (_DIRENTRY T) ->
  forall fuel fh,
    0 <= pos fh ->
    (Z.to_nat (len (data fh) - pos fh) < fuel)%nat ->
    exists listing, iterdir_loop T fuel fh = Some listing.
Proof.
  intros Hsize. induction fuel as [|fuel IH]; intros fh Hpos Hfuel; [lia|].
  cbn [iterdir_loop].
  destruct (read fh 8) as [buf fh1] eqn:Hread.
  destruct (int_from_bytes_little buf <=? 8) eqn:Elen; [eauto|].
  apply Z.leb_gt in Elen.
  destruct (read_pos _ _ _ _ Hread) as [Hdata1 Hpos1].
  pose proof (read_len _ _ _ _ Hpos Hread) as Hleft.
  assert (Hbuf : 1 <= len buf).
  { destruct buf; [cbn in Elen; lia|]. unfold len. cbn [List.length]. lia. }
  destruct (__init__ T _) as [e|[child fh2]] eqn:Hinit; [eauto|].
  destruct (init_cursor _ _ _ _ Hinit) as (Hdata2 & Hpos2 & _).
  cbn [data pos seek] in Hdata2, Hpos2. unfold tell in *.
  pose proof (align_up_bounds (pos fh2)) as Halign.
  destruct (IH (seek fh2 (Z.land (pos fh2 + 7) (-8)))) as [[entries failure] Hrest].
  - cbn [seek pos]. lia.
  - cbn [seek pos data]. rewrite Hdata2, Hdata1. lia.
  - rewrite Hrest. eauto.
Qed.

(** What the loop yields are records parsed from the stream. *)
Lemma iterdir_loop_yields (fuel : nat) :
  forall fh entries failure,
    iterdir_loop T fuel fh = Some (entries, failure) ->
    Forall (fun e => exists start fh',
                       __init__ T (mkIO (data fh) start) = inr (e, fh'))
           entries.
Proof.
  induction fuel as [|fuel IH]; intros fh entries failure; [discriminate|].
  cbn [iterdir_loop].
  destruct (read fh 8) as [buf fh1] eqn:Hread.
  destruct (read_pos _ _ _ _ Hread) as [Hdata1 _].
  destruct (int_from_bytes_little buf <=? 8); [intros [= <- _]; constructor|].
  destruct (__init__ T _) as [e|[child fh2]] eqn:Hinit;
    [intros [= <- _]; constructor|].
  destruct (init_cursor _ _ _ _ Hinit) as (Hdata2 & _).
  destruct (iterdir_loop T fuel _) as [[rest failure']|] eqn:Hrest;
    [|discriminate].
  intros [= <- _]. apply IH in Hrest.
  cbn [seek data] in Hrest, Hdata2. rewrite Hdata2, Hdata1 in Hrest.
  constructor; [|exact Hrest].
  unfold seek in Hinit. rewrite Hdata1 in Hinit. eauto.
Qed.

End Iteration.

(** X15.  The loop of [iterdir] ends.  Where the directory record is at
    least 8 bytes long, the iteration from any [SubdirOffset] that is not
    negative comes to an end within as many turns as the stream has
    bytes after the offset, by a terminator, by the end of the stream or
    by a record that fails to parse, and more turns change nothing: the
    listing [metadata_of] gives is what the loop yields.  Every entry
    of the listing is a record parsed somewhere in the stream.  A
    directory whose [SubdirOffset] is at the end of the stream or beyond
    has no child, and that is no error. *)
Theorem iterdir_ends
    (T : DirectoryEntry.types) (fh : BinaryIO) (subdir : Z) :
  8 <= c_wim.sizeof (DirectoryEntry._DIRENTRY T) ->
  0 <= subdir ->
  (forall fuel,
      (DirectoryEntry.iterdir_fuel (seek fh subdir) <= fuel)%nat ->
      DirectoryEntry.iterdir_loop T fuel (seek fh subdir)
      = Some (DirectoryEntry.metadata_of T fh subdir))
  /\ (forall e,
        In e (fst (DirectoryEntry.metadata_of T fh subdir)) ->
        exists start fh',
          DirectoryEntry.__init__ T (seek fh start) = inr (e, fh'))
  /\ (len (data fh) <= subdir ->
      DirectoryEntry.metadata_of T fh subdir = ([], None)).
Proof.
  intros Hsize Hsub.
  destruct (iterdir_loop_ends T Hsize
              (DirectoryEntry.iterdir_fuel (seek fh subdir)) (seek fh subdir))
    as [listing Hl].
  { cbn [seek pos]. exact Hsub. }
  { unfold DirectoryEntry.iterdir_fuel. lia. }
  split; [|split].
  - intros fuel Hfuel. unfold DirectoryEntry.metadata_of. cbv zeta.
    rewrite Hl. now apply (iterdir_loop_more T _ _ _ _ Hfuel).
  - unfold DirectoryEntry.metadata_of. cbv zeta. rewrite Hl.
    destruct listing as [entries failure]. cbn [fst].
    apply iterdir_loop_yields in Hl. rewrite Forall_forall in Hl.
    exact Hl.
  - intros Hend. unfold DirectoryEntry.metadata_of, DirectoryEntry.iterdir_fuel.
    cbv zeta. cbn [DirectoryEntry.iterdir_loop].
    assert (Hread : read (seek fh subdir) 8 = ([], seek fh subdir)).
    { assert (Hs : skipn (Z.to_nat subdir) (data fh) = [])
        by (apply skipn_all2; unfold len in Hend; lia).
      unfold read, seek. cbn [pos data]. rewrite Hs.
      change (8 <? 0) with false. cbv iota. rewrite firstn_nil.
      change (len (@nil byte)) with 0. now rewrite Z.add_0_r. }
    rewrite Hread. reflexivity.
Qed.

(** The directory at 136 of the sample stream holds [a] and [d]. *)
Lemma sample_listing :
  DirectoryEntry.metadata_of Sample.types Sample.metadata_fh 136
  = ([Sample.parsed_a; Sample.parsed_d], None).
Proof. vm_compute. reflexivity. Qed.

(** On the sample stream, the directory at 136: its two children. *)
Lemma iterdir_ends_sample :
  (forall fuel,
      (DirectoryEntry.iterdir_fuel (seek Sample.metadata_fh 136) <= fuel)%nat ->
      DirectoryEntry.iterdir_loop Sample.types fuel (seek Sample.metadata_fh 136)
      = Some (DirectoryEntry.metadata_of Sample.types Sample.metadata_fh 136))
  /\ (forall e,
        In e (fst (DirectoryEntry.metadata_of Sample.types
                     Sample.metadata_fh 136)) ->
        exists start fh',
          DirectoryEntry.__init__ Sample.types (seek Sample.metadata_fh start)
          = inr (e, fh'))
  /\ (len (data Sample.metadata_fh) <= 136 ->
      DirectoryEntry.metadata_of Sample.types Sample.metadata_fh 136
      = ([], None)).
Proof.
  apply (iterdir_ends Sample.types Sample.metadata_fh 136).
  - cbn. lia.
  - lia.
Defined.

(* ------------------------------------------------------------------ *)
(** ** The root of an image *)

(** X16.  Where an image is parsed.  When [Image(wim, fh)] returns, its
    security block is the one parsed at the cursor of [fh], and its root
    is the record parsed at the first multiple of 8 that is not below
    the end of the security block: [offset + (-offset & 7)] is the
    alignment [(offset + 7) & -8] of the other records.  The image keeps
    the archive it was given, and the empty path is its root. *)
Theorem image_root_is_aligned
    (T : DirectoryEntry.types)
    (_SECURITYBLOCK_DISK : DirectoryEntry.parser c_wim.SECURITYBLOCK_DISK.t)
    (wim : WIM.t) (fh : BinaryIO) (image : Image.t) :
  Image.__init__ T _SECURITYBLOCK_DISK wim fh = inr image ->
  exists header fh1 fh3,
    _SECURITYBLOCK_DISK fh = inr (header, fh1)
    /\ let fh2 := snd (SecurityBlock.__init__ header fh1) in
       let start := 8 * ((tell fh2 + 7) / 8) in
       tell fh2 <= start < tell fh2 + 8
       /\ DirectoryEntry.__init__ T (seek fh2 start)
          = inr (Image.root image, fh3)
       /\ Image.security image = fst (SecurityBlock.__init__ header fh1)
       /\ Image.wim image = wim
       /\ Image.fh image = DirectoryEntry.metadata_of T (seek fh2 start)
       /\ Image.get image "" None = Ok (Image.root image).
Proof.
  unfold Image.__init__.
  destruct (_SECURITYBLOCK_DISK fh) as [e|[header fh1]]; [discriminate|].
  destruct (SecurityBlock.__init__ header fh1) as [security fh2] eqn:Hsec.
  rewrite pad_is_align_up.
  pose proof (align_up_bounds (tell fh2)) as Hbounds.
  rewrite align_up in *.
  destruct (DirectoryEntry.__init__ T _) as [e|[root fh3]] eqn:Hroot;
    [discriminate|].
  intros [= <-]. exists header, fh1, fh3. rewrite Hsec. cbn [snd fst].
  cbv zeta. cbn [Image.root Image.security Image.wim Image.fh].
  repeat split; try lia. exact Hroot.
Qed.

(** On the sample stream: the security block ends at 19, the root is
    parsed at 24. *)
Lemma image_root_is_aligned_sample :
  exists header fh1 fh3,
    Sample._SECURITYBLOCK_DISK Sample.metadata_fh = inr (header, fh1)
    /\ let fh2 := snd (SecurityBlock.__init__ header fh1) in
       let start := 8 * ((tell fh2 + 7) / 8) in
       tell fh2 <= start < tell fh2 + 8
       /\ DirectoryEntry.__init__ Sample.types (seek fh2 start)
          = inr (Image.root Sample.parsed_image, fh3)
       /\ Image.security Sample.parsed_image
          = fst (SecurityBlock.__init__ header fh1)
       /\ Image.wim Sample.parsed_image = Sample.wim
       /\ Image.fh Sample.parsed_image
          = DirectoryEntry.metadata_of Sample.types (seek fh2 start)
       /\ Image.get Sample.parsed_image "" None
          = Ok (Image.root Sample.parsed_image).
Proof.
  apply (image_root_is_aligned Sample.types Sample._SECURITYBLOCK_DISK
           Sample.wim Sample.metadata_fh Sample.parsed_image).
  lazy -[DirectoryEntry.metadata_of]. reflexivity.
Defined.

(* ------------------------------------------------------------------ *)
(** ** Timestamps *)

(** X17.  The conversion of a Windows timestamp keeps the order and
    loses nothing: two timestamps compare as their nanoseconds do, so two
    entries compare by [last_write_time_ns] as their records compare by
    [LastWriteTime].  The tick 116444736000000000 (1970-01-01) is where
    the nanoseconds are 0, the ticks before it give negative nanoseconds,
    a tick is 100 ns, and every result is a multiple of 100. *)
Theorem ts_to_ns_keeps_order (a b : Z) (e1 e2 : DirectoryEntry.t) :
  (_ts_to_ns a <= _ts_to_ns b <-> a <= b)
  /\ (_ts_to_ns a = _ts_to_ns b <-> a = b)
  /\ (_ts_to_ns a = 0 <-> a = 116444736000000000)
  /\ (_ts_to_ns a < 0 <-> a < 116444736000000000)
  /\ _ts_to_ns (a + 1) = _ts_to_ns a + 100
  /\ _ts_to_ns a mod 100 = 0
  /\ (DirectoryEntry.last_write_time_ns e1 <= DirectoryEntry.last_write_time_ns e2
      <-> c_wim.DIRENTRY.LastWriteTime (DirectoryEntry.entry e1)
          <= c_wim.DIRENTRY.LastWriteTime (DirectoryEntry.entry e2))
  /\ (DirectoryEntry.creation_time_ns e1 <= DirectoryEntry.last_access_time_ns e1
      <-> c_wim.DIRENTRY.CreationTime (DirectoryEntry.entry e1)
          <= c_wim.DIRENTRY.LastAccessTime (DirectoryEntry.entry e1)).
Proof.
  unfold DirectoryEntry.last_write_time_ns, DirectoryEntry.creation_time_ns,
    DirectoryEntry.last_access_time_ns, _ts_to_ns.
  repeat match goal with |- _ /\ _ => split end; try lia.
  replace (a * 100 - 11644473600000000000)
    with ((a - 116444736000000000) * 100) by lia.
  apply Z.mod_mul. lia.
Qed.

(* ------------------------------------------------------------------ *)
(** ** The fields of a resource *)

(** X18.  The fields of a resource.  [from_header] gives the resource of
    the short header it contains, with the part number, the reference
    count and the hash of the entry; the resource of a short header
    alone has none of the three, so [resources()], which yields
    resources with a hash, never yields it back.  The size is the
    number the bytes of [Size] spell, never negative, and below [2^56]
    for a field of 7 bytes, whatever the flags are. *)
Theorem resource_fields
    (wim : wim_handle) (reshdr : c_wim.RESHDR_DISK.t) :
  let base := c_wim.RESHDR_DISK.Base reshdr in
  let short := Resource.from_short_header wim base in
  let full := Resource.from_header wim reshdr in
  Resource.size full = Resource.size short
  /\ Resource.flags full = c_wim.RESHDR_DISK_SHORT.Flags base
  /\ Resource.offset full = c_wim.RESHDR_DISK_SHORT.Offset base
  /\ Resource.original_size full = c_wim.RESHDR_DISK_SHORT.OriginalSize base
  /\ Resource.hash full = Some (c_wim.RESHDR_DISK.Hash reshdr)
  /\ Resource.hash short = None
  /\ (forall DECOMPRESSOR_MAP,
        Resource.open DECOMPRESSOR_MAP full = Resource.open DECOMPRESSOR_MAP short)
  /\ 0 <= Resource.size full < 256 ^ len (c_wim.RESHDR_DISK_SHORT.Size base)
  /\ (len (c_wim.RESHDR_DISK_SHORT.Size base) = 7 ->
      Resource.size full < 2 ^ 56).
Proof.
  cbv zeta. unfold Resource.from_header, Resource.from_short_header.
  cbn [Resource.size Resource.flags Resource.offset Resource.original_size
       Resource.hash Resource.wim].
  pose proof (int_from_bytes_little_bounds
                (c_wim.RESHDR_DISK_SHORT.Size (c_wim.RESHDR_DISK.Base reshdr)))
    as Hsize.
  repeat match goal with |- _ /\ _ => split end;
    try reflexivity; try lia.
  intros H7. rewrite H7 in Hsize. change (256 ^ 7) with (2 ^ 56) in Hsize. lia.
Qed.

(* ------------------------------------------------------------------ *)
(** ** The reparse point of an entry *)

(** X19.  The reparse point of an entry.  An entry without the
    reparse-point attribute, and so every directory, has none:
    [reparse_point] raises [NotAReparsePointError] before it opens
    anything.  With the attribute, an exception of [open] on the default
    stream comes out as it is.  A reparse point that is returned belongs
    to a file with the attribute and carries the tag of the record; it
    has no buffer information exactly when the entry is neither a mount
    point nor a symbolic link; and for an entry that is no symbolic link
    it is absolute and not relative. *)
Theorem reparse_point_outcomes
    (DECOMPRESSOR_MAP : decompressor_map)
    (MOUNT_POINT_REPARSE_BUFFER SYMBOLIC_LINK_REPARSE_BUFFER :
       BinaryIO -> result (c_wim.REPARSE_BUFFER.t * BinaryIO))
    (contents : stream -> BinaryIO) (wim : WIM.t) (e : DirectoryEntry.t) :
  let reparse_point :=
    DirectoryEntry.reparse_point DECOMPRESSOR_MAP MOUNT_POINT_REPARSE_BUFFER
      SYMBOLIC_LINK_REPARSE_BUFFER contents wim e in
  (DirectoryEntry.is_reparse_point e = false ->
   reparse_point = Raise NotAReparsePointError)
  /\ (DirectoryEntry.is_dir e = true ->
      reparse_point = Raise NotAReparsePointError)
  /\ (forall x,
        DirectoryEntry.is_reparse_point e = true ->
        DirectoryEntry.open DECOMPRESSOR_MAP wim e "" = Raise x ->
        reparse_point = Raise x)
  /\ (forall rp,
        reparse_point = Ok rp ->
        DirectoryEntry.is_reparse_point e = true
        /\ DirectoryEntry.is_file e = true
        /\ ReparsePoint.tag rp
           = c_wim.DIRENTRY.ReparseTag (DirectoryEntry.entry e)
        /\ (ReparsePoint.info rp = None
            <-> DirectoryEntry.is_mount_point e = false
                /\ DirectoryEntry.is_symlink e = false)
        /\ (DirectoryEntry.is_symlink e = false ->
            ReparsePoint.absolute rp = Ok true
            /\ ReparsePoint.relative rp = Ok false)).
Proof.
  cbv zeta. unfold DirectoryEntry.reparse_point.
  split; [|split; [|split]].
  - now intros ->.
  - intros Hdir. apply is_dir_clears_bit_10 in Hdir.
    now rewrite is_reparse_point_bit, Hdir.
  - intros x -> Hopen. cbn [negb]. now rewrite Hopen.
  - intros rp.
    destruct (DirectoryEntry.is_reparse_point e) eqn:Hrp; cbn [negb];
      [|discriminate].
    destruct (DirectoryEntry.open _ _ _ _) as [fh|]; cbn [bind]; [|discriminate].
    intros Hinit. apply init_info in Hinit as [Htag Hinfo].
    assert (Hfile : DirectoryEntry.is_file e = true).
    { unfold DirectoryEntry.is_file. apply negb_true_iff.
      destruct (DirectoryEntry.is_dir e) eqn:Hdir; [|reflexivity].
      apply is_dir_clears_bit_10 in Hdir.
      rewrite is_reparse_point_bit in Hrp. congruence. }
    unfold DirectoryEntry.is_mount_point, DirectoryEntry.is_symlink.
    rewrite Hrp. cbn [andb].
    repeat split; try assumption.
    + apply Z.eqb_neq, Hinfo. assumption.
    + apply Z.eqb_neq, Hinfo. assumption.
    + intros [Hm Hs]. apply Hinfo. split; now apply Z.eqb_neq.
    + unfold ReparsePoint.absolute. rewrite Htag.
      now match goal with H : (_ =? _) = false |- _ => rewrite H end.
    + unfold ReparsePoint.relative. rewrite Htag.
      now match goal with H : (_ =? _) = false |- _ => rewrite H end.
Qed.
